(** * Wallswipe invite bot: referral attribution and reward dispatch

    A shallow embedding of the Telegram bot of this repository
    (the entry script with its command and update handlers, and the three
    Mongoose models [User], [Reward] and [Referral]) together with the
    properties its specification states about it.

    Conventions of the embedding:
    - a Mongoose collection is the list of its documents in insertion order;
      a document's position in the list plays the role of its [_id], so
      [save] writes a loaded document back at the position it was read from;
    - the handlers are run one after the other (one update is processed to
      completion before the next one starts);
    - everything the outside world decides (whether Telegram accepts a
      message or a document, which link [createChatInviteLink] returns)
      comes with the update as an explicit outcome;
    - what a handler does to the outside world is returned as a list of
      [effect]s in the order the calls are made;
    - [createdAt] and [date], which the code never reads, are left out. *)

From Stdlib Require Import ZArith QArith Qround Qreduction Bool Ascii String.
From stdpp Require Import base option list sorting gmap strings.

Local Open Scope string_scope.
Local Open Scope Z_scope.
Local Open Scope list_scope.

(** ** JavaScript numbers

    A [Number] is [NaN], an infinity or a finite value.  Finite values are
    exact rationals kept in lowest terms: rounding to binary64 is not part
    of the model, and negative zero is identified with zero.  All the
    numbers the handlers compute on integer arguments below 2^53 are
    exact in JavaScript as well. *)
Module JsNumber.

Inductive number : Type :=
| NaN
| Infinity (negative : bool)
| Finite (q : Q).

Definition of_Q (q : Q) : number := Finite (Qred q).
Definition of_Z (z : Z) : number := Finite (inject_Z z).
Definition of_nat (n : nat) : number := of_Z (Z.of_nat n).

Definition Qnegative (q : Q) : bool := Qnum q <? 0.
Definition Qzero (q : Q) : bool := Qnum q =? 0.

(** [Number.isNaN] / the global [isNaN] on a number. *)
Definition isNaN (x : number) : bool :=
  match x with NaN => true | _ => false end.

(** [Number.isFinite]. *)
Definition isFinite (x : number) : bool :=
  match x with Finite _ => true | _ => false end.

(** Unary minus. *)
Definition neg (x : number) : number :=
  match x with
  | NaN => NaN
  | Infinity s => Infinity (negb s)
  | Finite q => of_Q (- q)
  end.

(** [x + y]. *)
Definition add (x y : number) : number :=
  match x, y with
  | NaN, _ | _, NaN => NaN
  | Infinity a, Infinity b => if Bool.eqb a b then Infinity a else NaN
  | Infinity a, Finite _ | Finite _, Infinity a => Infinity a
  | Finite a, Finite b => of_Q (a + b)
  end.

(** [x - y]. *)
Definition sub (x y : number) : number := add x (neg y).

(** [x * y]. *)
Definition mul (x y : number) : number :=
  match x, y with
  | NaN, _ | _, NaN => NaN
  | Infinity a, Infinity b => Infinity (xorb a b)
  | Infinity a, Finite q | Finite q, Infinity a =>
      if Qzero q then NaN else Infinity (xorb a (Qnegative q))
  | Finite a, Finite b => of_Q (a * b)
  end.

(** [x / y]; a zero divisor counts as positive zero. *)
Definition div (x y : number) : number :=
  match x, y with
  | NaN, _ | _, NaN => NaN
  | Infinity _, Infinity _ => NaN
  | Infinity a, Finite q => Infinity (xorb a (Qnegative q))
  | Finite _, Infinity _ => of_Z 0
  | Finite a, Finite b =>
      if Qzero b then (if Qzero a then NaN else Infinity (Qnegative a))
      else of_Q (a / b)
  end.

(** [Math.ceil]. *)
Definition ceil (x : number) : number :=
  match x with
  | Finite q => of_Z (Qceiling q)
  | _ => x
  end.

(** Rounding towards zero, as the quotient of [%] is rounded. *)
Definition Qtruncate (q : Q) : Z :=
  if Qnegative q then Qceiling q else Qfloor q.

(** [x % y]: the remainder has the sign of the dividend. *)
Definition rem (x y : number) : number :=
  match x, y with
  | NaN, _ | _, NaN => NaN
  | Infinity _, _ => NaN
  | Finite _, Infinity _ => x
  | Finite a, Finite b =>
      if Qzero b then NaN
      else of_Q (a - b * inject_Z (Qtruncate (a / b)))
  end.

(** [x <= y]. *)
Definition le (x y : number) : bool :=
  match x, y with
  | NaN, _ | _, NaN => false
  | Infinity a, Infinity b => a || negb b
  | Infinity a, Finite _ => a
  | Finite _, Infinity b => negb b
  | Finite a, Finite b => Qle_bool a b
  end.

(** [x === y] on two numbers. *)
Definition strict_eq (x y : number) : bool :=
  match x, y with
  | Infinity a, Infinity b => Bool.eqb a b
  | Finite a, Finite b => Qeq_bool a b
  | _, _ => false
  end.


End JsNumber.
Import JsNumber.

(** ** Progress report *)

(** [progressText(invites, step)]: the values of the locals [next] and
    [left], which the function interpolates into the text it returns. *)
Definition progressText (invites step : number) : number * number :=
  let next := mul (ceil (div (add invites (of_Z 1)) step)) step in
  let done := rem invites step in
  let left := sub step done in
  (next, left).

(** ** JavaScript strings

    A string is the sequence of its bytes.  White space is the ASCII white
    space (tab, line feed, vertical tab, form feed, carriage return and
    space); letter case is changed on ASCII letters. *)
Module JsString.

Definition code (c : ascii) : Z := Z.of_N (N_of_ascii c).

Definition is_white (c : ascii) : bool :=
  let n := code c in ((9 <=? n) && (n <=? 13)) || (n =? 32).

Fixpoint trimStart (s : string) : string :=
  match s with
  | String c s' => if is_white c then trimStart s' else s
  | EmptyString => s
  end.

(** [s.trim()]. *)
Definition trim (s : string) : string :=
  String.rev (trimStart (String.rev (trimStart s))).

(** The maximal runs of characters that are not white space; [cur] is the
    run being read, reversed. *)
Fixpoint runs (cur : option string) (s : string) : list string :=
  match s with
  | EmptyString => option_list (String.rev <$> cur)
  | String c s' =>
      if is_white c then option_list (String.rev <$> cur) ++ runs None s'
      else runs (Some (String c (default "" cur))) s'
  end.

(** [s.trim().split(/\s+/)]: the empty string splits into one empty part. *)
Definition trim_split (s : string) : list string :=
  match runs None s with
  | [] => [""]
  | parts => parts
  end.

(** What follows the first space of [s], if any. *)
Fixpoint after_first_space (s : string) : option string :=
  match s with
  | EmptyString => None
  | String c s' => if code c =? 32 then Some s' else after_first_space s'
  end.

(** [s.split(' ').slice(1).join(' ').trim()]. *)
Definition command_argument (s : string) : string :=
  trim (default "" (after_first_space s)).

(** [s.startsWith(p)]. *)
Definition startsWith (p s : string) : bool := String.prefix p s.

(** [s.endsWith(p)]. *)
Definition endsWith (p s : string) : bool :=
  String.prefix (String.rev p) (String.rev s).

(** [s.includes(p)]. *)
Fixpoint includes (p s : string) : bool :=
  String.prefix p s ||
  match s with
  | String _ s' => includes p s'
  | EmptyString => false
  end.

Definition lower (c : ascii) : ascii :=
  let n := code c in
  if (65 <=? n) && (n <=? 90) then ascii_of_N (Z.to_N (n + 32)) else c.

(** [s.toLowerCase()]. *)
Fixpoint toLowerCase (s : string) : string :=
  match s with
  | String c s' => String (lower c) (toLowerCase s')
  | EmptyString => EmptyString
  end.

(** [s.slice(1)]. *)
Definition slice1 (s : string) : string :=
  match s with
  | String _ s' => s'
  | EmptyString => EmptyString
  end.

(** Truthiness of a value that is a string or [undefined]. *)
Definition truthy (s : option string) : bool :=
  match s with
  | Some (String _ _) => true
  | _ => false
  end.

End JsString.
Import JsString.

(** ** [Number(text)]

    The conversion of a string to a number: optional white space around a
    binary, octal or hexadecimal integer, or around a signed decimal
    literal with optional fraction and exponent, or a signed [Infinity];
    the empty string is [0] and everything else is [NaN]. *)
Module ToNumber.

Definition digit_of (base : Z) (c : ascii) : option Z :=
  let n := code c in
  let d := if (48 <=? n) && (n <=? 57) then n - 48
           else if (97 <=? n) && (n <=? 122) then n - 87
           else if (65 <=? n) && (n <=? 90) then n - 55
           else base in
  if d <? base then Some d else None.

(** Reads the longest run of digits at the head of [s]: its value, its
    length and the rest of the string. *)
Fixpoint read_digits (base : Z) (s : string) (acc : Z) (len : nat)
  : Z * nat * string :=
  match s with
  | String c s' =>
      match digit_of base c with
      | Some d => read_digits base s' (acc * base + d) (S len)
      | None => (acc, len, s)
      end
  | EmptyString => (acc, len, s)
  end.

Definition read_sign (s : string) : bool * string :=
  match s with
  | String "-" s' => (true, s')
  | String "+" s' => (false, s')
  | _ => (false, s)
  end.

Definition pow10 (e : Z) : Q :=
  if e <? 0 then 1 # Z.to_pos (10 ^ (- e)) else inject_Z (10 ^ e).

Definition exponent_part (m : Q) (s : string) : option Q :=
  match s with
  | EmptyString => Some m
  | String c s' =>
      if (code c =? 101) || (code c =? 69) then
        let '(negative, s'') := read_sign s' in
        let '(e, n, r) := read_digits 10 s'' 0 0 in
        match n, r with
        | S _, EmptyString => Some (m * pow10 (if negative then - e else e))%Q
        | _, _ => None
        end
      else None
  end.

Definition unsigned_decimal (s : string) : option Q :=
  let '(ip, n1, r1) := read_digits 10 s 0 0 in
  match r1 with
  | String "." r2 =>
      let '(fp, n2, r3) := read_digits 10 r2 0 0 in
      match n1, n2 with
      | O, O => None
      | _, _ =>
          exponent_part
            (inject_Z ip + inject_Z fp * pow10 (- Z.of_nat n2))%Q r3
      end
  | _ =>
      match n1 with
      | O => None
      | S _ => exponent_part (inject_Z ip) r1
      end
  end.

Definition radix_of (c : ascii) : option Z :=
  let n := code c in
  if (n =? 120) || (n =? 88) then Some 16
  else if (n =? 111) || (n =? 79) then Some 8
  else if (n =? 98) || (n =? 66) then Some 2
  else None.

Definition non_decimal (s : string) : option Z :=
  match s with
  | String "0" (String p r) =>
      match radix_of p with
      | Some base =>
          match read_digits base r 0 0 with
          | (v, S _, EmptyString) => Some v
          | _ => None
          end
      | None => None
      end
  | _ => None
  end.

Definition Number_of_string (text : string) : number :=
  let s := trim text in
  if decide (s = "") then of_Z 0
  else match non_decimal s with
       | Some v => of_Z v
       | None =>
           let '(negative, u) := read_sign s in
           if decide (u = "Infinity") then Infinity negative
           else match unsigned_decimal u with
                | Some q => of_Q (if negative then - q else q)
                | None => NaN
                end
       end.

(** [Number(x)] for [x] a string or [undefined]. *)
Definition Number (x : option string) : number :=
  match x with
  | Some s => Number_of_string s
  | None => NaN
  end.

End ToNumber.
Import ToNumber.

(** ** Configuration and documents *)

(** The environment the bot is started with ([BOT_TOKEN] and [MONGO_URI]
    are only handed to the libraries).  [ADMIN_ID] and
    [INVITES_PER_REWARD] are the numbers [Number(...)] made of the
    variables; [LEADERBOARD_SIZE] is a count of documents. *)
Record Config := {
  CHANNEL_ID : string;
  ADMIN_ID : number;
  INVITES_PER_REWARD : number;
  LEADERBOARD_SIZE : nat
}.

(** A chat id after [normalizeChatId]: a public name or a number. *)
Inductive chat_ident :=
| Public (name : string)
| Numeric (n : number).

Definition normalizeChatId (id : string) : chat_ident :=
  if startsWith "@" id then Public id else Numeric (Number_of_string id).

Definition CHANNEL_CHAT_ID (cfg : Config) : chat_ident :=
  normalizeChatId (CHANNEL_ID cfg).

(** A document of the [User] collection. *)
Record User := {
  userId : Z;
  username : option string;
  inviteLink : option string;
  invitedUsers : list Z;
  invitesCount : nat;
  rewardsClaimed : list string
}.

(** A document of the [Reward] collection. *)
Record Reward := {
  rewardId : string;
  fileId : string;
  threshold : number
}.

(** A document of the [Referral] collection. *)
Record Referral := {
  joinedUserId : Z;
  inviterUserId : Z;
  chatId : option number
}.

(** The three collections and the in-memory [pendingRewardUploads] map. *)
Record State := {
  users : list User;
  rewards : list Reward;
  referrals : list Referral;
  pendingRewardUploads : gmap Z (string * number)
}.

Definition initial : State :=
  {| users := []; rewards := []; referrals := [];
     pendingRewardUploads := ∅ |}.

Definition with_users (st : State) (us : list User) : State :=
  {| users := us; rewards := rewards st; referrals := referrals st;
     pendingRewardUploads := pendingRewardUploads st |}.

Definition with_rewards (st : State) (rs : list Reward) : State :=
  {| users := users st; rewards := rs; referrals := referrals st;
     pendingRewardUploads := pendingRewardUploads st |}.

Definition with_referrals (st : State) (fs : list Referral) : State :=
  {| users := users st; rewards := rewards st; referrals := fs;
     pendingRewardUploads := pendingRewardUploads st |}.

Definition with_pending (st : State) (p : gmap Z (string * number)) : State :=
  {| users := users st; rewards := rewards st; referrals := referrals st;
     pendingRewardUploads := p |}.

(** [user.save()] for the document read from position [i]. *)
Definition save (st : State) (i : nat) (u : User) : State :=
  with_users st (<[i := u]> (users st)).

Definition set_username (u : User) (name : option string) : User :=
  {| userId := userId u; username := name; inviteLink := inviteLink u;
     invitedUsers := invitedUsers u; invitesCount := invitesCount u;
     rewardsClaimed := rewardsClaimed u |}.

Definition set_inviteLink (u : User) (link : string) : User :=
  {| userId := userId u; username := username u; inviteLink := Some link;
     invitedUsers := invitedUsers u; invitesCount := invitesCount u;
     rewardsClaimed := rewardsClaimed u |}.

Definition set_invited (u : User) (js : list Z) (n : nat) : User :=
  {| userId := userId u; username := username u; inviteLink := inviteLink u;
     invitedUsers := js; invitesCount := n;
     rewardsClaimed := rewardsClaimed u |}.

Definition push_claimed (u : User) (id : string) : User :=
  {| userId := userId u; username := username u; inviteLink := inviteLink u;
     invitedUsers := invitedUsers u; invitesCount := invitesCount u;
     rewardsClaimed := rewardsClaimed u ++ [id] |}.

(** ** Updates and effects *)

(** [ctx.from]. *)
Record From := {
  from_id : Z;
  from_username : option string;
  first_name : string
}.

(** [ctx.message.document]. *)
Record Document := {
  mime_type : option string;
  file_name : option string;
  file_id : string
}.

Record Chat := {
  chat_id : Z;
  chat_username : option string
}.

(** [old_chat_member] and [new_chat_member]: the status and the user's id. *)
Record ChatMember := {
  status : string;
  member_id : Z
}.

(** [ctx.update.chat_member]; [invite_link] is [upd.invite_link?.invite_link]. *)
Record ChatMemberUpdated := {
  chat : option Chat;
  old_chat_member : option ChatMember;
  new_chat_member : option ChatMember;
  invite_link : option string
}.

(** [user.username || user.userId] and the like. *)
Definition label : Type := string + Z.

(** The texts the bot sends, by template and interpolated values. *)
Inductive message :=
| Welcome (name link : string) (step : number)
| YourLink (link : string)
| Progress (who : label) (invites : nat) (next togo : number)
| NoRewardsYet
| Unlocked (ids : list string)
| NoData
| Leaderboard (lines : list (label * nat))
| StatsReport (totalUsers totalReferrals activeInviters : nat)
| UserUsage
| UserNotFound
| UserReport (u : User)
| BroadcastUsage
| BroadcastText (msg : string)
| BroadcastDone (ok fail : nat)
| NoRewardsSaved
| RewardsReport (lines : list (string * number))
| RewardUsage
| SendTheZip (id : string) (threshold : number)
| PleaseSendZip
| SavedReward (id : string) (threshold : number)
| NewMemberJoined (total : nat)
| HelpText.

(** What a handler does besides computing: writes to the database, calls
    to Telegram with their outcome, lines on the error console, and an
    exception that leaves the handler. *)
Inductive effect :=
| UserCreated (uid : Z)
| UserSaved (uid : Z)
| ReferralCreated (joined inviter : Z)
| RewardUpserted (id : string)
| Reply (m : message)
| SendMessage (to : Z) (m : message) (ok : bool)
| SendDocument (to : Z) (file : string) (id : string) (thr : number) (ok : bool)
| CreateChatInviteLink (uid : Z) (answer : option string)
| ConsoleError (what : string)
| Throws.

(** An update together with what the outside world answers while it is
    handled: [link] is the answer of [createChatInviteLink] ([None] when
    Telegram refuses), [notified] tells whether the message to the inviter
    is accepted, [delivered] whether a send to the given recipient or of the
    given reward document is accepted. *)
Inductive update :=
| StartCmd (from : option From) (link : option string)
| LinkCmd (from : option From) (link : option string)
| MyInvitesCmd (from : option From)
| RewardsCmd (from : option From)
| TopCmd
| HelpCmd
| StatsCmd (from : option From)
| UserCmd (from : option From) (text : string)
| BroadcastCmd (from : option From) (text : string) (accepted : Z → bool)
| RewardsListCmd (from : option From)
| RewardCmd (from : option From) (text : string)
| DocumentMsg (from : option From) (doc : Document)
| ChatMemberUpd (upd : option ChatMemberUpdated) (notified : bool)
    (delivered : Reward → bool).

(** ** Helpers of the entry script *)

(** Strict inequality [!==] is needed between values of different types. *)
Inductive value :=
| VUndefined
| VNull
| VNumber (n : number)
| VString (s : string).

(** [a !== b]. *)
Definition strict_neq (a b : value) : bool :=
  negb match a, b with
       | VUndefined, VUndefined => true
       | VNull, VNull => true
       | VNumber x, VNumber y => strict_eq x y
       | VString s, VString t => bool_decide (s = t)
       | _, _ => false
       end.

(** [Model.findOne(query)]: the first document that matches, with its
    position. *)
Definition findOne {A} (P : A → Prop) `{∀ x, Decision (P x)} (docs : list A)
  : option (nat * A) := list_find P docs.

(** [User.create({ userId, username })], with the defaults of the schema. *)
Definition new_user (uid : Z) (name : option string) : User :=
  {| userId := uid; username := name; inviteLink := None;
     invitedUsers := []; invitesCount := 0; rewardsClaimed := [] |}.

(** [ensureUser(ctx.from)]: the state, the position of the user's document,
    the document and the writes made. *)
Definition ensureUser (st : State) (from : From)
  : State * nat * User * list effect :=
  match findOne (λ u, userId u = from_id from) (users st) with
  | None =>
      let user := new_user (from_id from) (from_username from) in
      (with_users st (users st ++ [user]), length (users st), user,
       [UserCreated (from_id from)])
  | Some (i, user) =>
      if decide (username user = from_username from) then (st, i, user, [])
      else
        let user := set_username user (from_username from) in
        (save st i user, i, user, [UserSaved (userId user)])
  end.

(** [getOrCreateInviteLinkForUser(user)]; the link is [None] when
    [createChatInviteLink] throws. *)
Definition getOrCreateInviteLinkForUser (answer : option string) (st : State)
    (i : nat) (user : User) : State * option string * list effect :=
  if truthy (inviteLink user) then (st, inviteLink user, [])
  else
    match answer with
    | None => (st, None, [CreateChatInviteLink (userId user) None])
    | Some link =>
        let user := set_inviteLink user link in
        (save st i user, Some link,
         [CreateChatInviteLink (userId user) (Some link);
          UserSaved (userId user)])
    end.

(** [isAdmin(ctx)]. *)
Definition isAdmin (cfg : Config) (from : option From) : bool :=
  match from with
  | Some f => strict_eq (of_Z (from_id f)) (ADMIN_ID cfg)
  | None => false
  end.

(** The order in which MongoDB sorts numbers ascending: [NaN] first, then
    the numbers in increasing order. *)
Definition sorts_before (x y : number) : bool :=
  match x, y with
  | NaN, _ => true
  | _, NaN => false
  | _, _ => le x y
  end.

(** The order of [sort({ threshold: 1 })] on rewards. *)
Definition by_threshold (a b : Reward) : Prop :=
  Is_true (sorts_before (threshold a) (threshold b)).

#[global] Instance by_threshold_dec : RelDecision by_threshold :=
  λ a b, Is_true_dec _.

(** [Reward.find().sort({ threshold: 1 })].  MongoDB does not fix the order
    of documents with equal thresholds; the model takes the order the merge
    sort leaves them in. *)
Definition rewards_by_threshold (st : State) : list Reward :=
  merge_sort by_threshold (rewards st).

(** The filter of [sendDueRewards]. *)
Definition due (inviter : User) (r : Reward) : bool :=
  le (threshold r) (of_nat (invitesCount inviter))
  && negb (bool_decide (rewardId r ∈ rewardsClaimed inviter)).

(** The [for] loop of [sendDueRewards] over [toSend]: the in-memory inviter
    after the loop and what was sent and logged.  [delivered r] tells
    whether [sendDocument] succeeds for [r]. *)
Fixpoint send_each (delivered : Reward → bool) (inviter : User)
    (toSend : list Reward) : User * list effect :=
  match toSend with
  | [] => (inviter, [])
  | r :: rest =>
      let call :=
        SendDocument (userId inviter) (fileId r) (rewardId r) (threshold r) in
      if delivered r then
        let '(inviter', es) :=
          send_each delivered (push_claimed inviter (rewardId r)) rest in
        (inviter', call true :: es)
      else
        let '(inviter', es) := send_each delivered inviter rest in
        (inviter', call false :: ConsoleError "Failed to send reward" :: es)
  end.

(** The tiers [sendDueRewards] tries to deliver, in the order it tries
    them. *)
Definition toSend (st : State) (inviter : User) : list Reward :=
  List.filter (due inviter) (rewards_by_threshold st).

(** [sendDueRewards(ctx, inviter)] for the inviter read from position [i]. *)
Definition sendDueRewards (delivered : Reward → bool) (st : State) (i : nat)
    (inviter : User) : State * User * list effect :=
  match rewards_by_threshold st with
  | [] => (st, inviter, [])
  | _ :: _ =>
      let '(inviter', es) := send_each delivered inviter (toSend st inviter) in
      match toSend st inviter with
      | [] => (st, inviter', es)
      | _ :: _ => (save st i inviter', inviter', es ++ [UserSaved (userId inviter')])
      end
  end.

(** [user.username || user.userId]. *)
Definition label_of (u : User) : label :=
  if truthy (username u) then inl (default "" (username u))
  else inr (userId u).

(** [u.username ? '@' + u.username : u.userId]. *)
Definition at_label_of (u : User) : label :=
  if truthy (username u) then inl ("@" +:+ default "" (username u))
  else inr (userId u).

(** ** Commands of every user *)

(** [bot.start]: the profile is ensured, the link found or created and the
    welcome text sent; a missing [ctx.from] or a refused link throws. *)
Definition on_start (cfg : Config) (st : State) (from : option From)
    (answer : option string) : State * list effect :=
  match from with
  | None => (st, [Throws])
  | Some f =>
      let '(st, i, user, es) := ensureUser st f in
      match getOrCreateInviteLinkForUser answer st i user with
      | (st, Some link, es') =>
          (st, es ++ es' ++
               [Reply (Welcome (first_name f) link (INVITES_PER_REWARD cfg))])
      | (st, None, es') => (st, es ++ es' ++ [Throws])
      end
  end.

(** [bot.command('link')]. *)
Definition on_link (st : State) (from : option From) (answer : option string)
  : State * list effect :=
  match from with
  | None => (st, [Throws])
  | Some f =>
      let '(st, i, user, es) := ensureUser st f in
      match getOrCreateInviteLinkForUser answer st i user with
      | (st, Some link, es') => (st, es ++ es' ++ [Reply (YourLink link)])
      | (st, None, es') => (st, es ++ es' ++ [Throws])
      end
  end.

(** [bot.command('myinvites')]. *)
Definition on_myinvites (cfg : Config) (st : State) (from : option From)
  : State * list effect :=
  match from with
  | None => (st, [Throws])
  | Some f =>
      let '(st, _, user, es) := ensureUser st f in
      let '(next, togo) :=
        progressText (of_nat (invitesCount user)) (INVITES_PER_REWARD cfg) in
      (st, es ++ [Reply (Progress (label_of user) (invitesCount user) next togo)])
  end.

(** [bot.command('rewards')]. *)
Definition on_rewards (st : State) (from : option From) : State * list effect :=
  match from with
  | None => (st, [Throws])
  | Some f =>
      let '(st, _, user, es) := ensureUser st f in
      match rewardsClaimed user with
      | [] => (st, es ++ [Reply NoRewardsYet])
      | ids => (st, es ++ [Reply (Unlocked ids)])
      end
  end.

(** The order of [sort({ invitesCount: -1 })] on users. *)
Definition more_invites (a b : User) : Prop := (invitesCount b ≤ invitesCount a)%nat.

#[global] Instance more_invites_dec : RelDecision more_invites :=
  λ a b, decide (invitesCount b ≤ invitesCount a)%nat.

(** [.limit(n)]: a limit of zero is no limit. *)
Definition limit {A} (n : nat) (docs : list A) : list A :=
  match n with
  | O => docs
  | S _ => take n docs
  end.

(** [bot.command('top')]. *)
Definition on_top (cfg : Config) (st : State) : State * list effect :=
  match limit (LEADERBOARD_SIZE cfg) (merge_sort more_invites (users st)) with
  | [] => (st, [Reply NoData])
  | top => (st, [Reply (Leaderboard ((λ u, (at_label_of u, invitesCount u)) <$> top))])
  end.

(** [bot.command('help')]. *)
Definition on_help (st : State) : State * list effect :=
  (st, [Reply HelpText]).

(** ** Admin commands *)

(** [bot.command('stats')]. *)
Definition on_stats (cfg : Config) (st : State) (from : option From)
  : State * list effect :=
  if negb (isAdmin cfg from) then (st, [])
  else
    (st, [Reply (StatsReport
                   (length (users st)) (length (referrals st))
                   (length (List.filter (λ u, bool_decide (0 < invitesCount u)%nat)
                              (users st))))]).

(** [bot.command('user')]: the lookup is by user name after [@], by id
    otherwise. *)
Definition on_user (cfg : Config) (st : State) (from : option From)
    (text : string) : State * list effect :=
  if negb (isAdmin cfg from) then (st, [])
  else
    let arg := command_argument text in
    if decide (arg = "") then (st, [Reply UserUsage])
    else
      let user :=
        if startsWith "@" arg then
          Some (findOne (λ u, username u = Some (slice1 arg)) (users st))
        else
          match Number_of_string arg with
          | NaN => None (* the query does not cast *)
          | n => Some (findOne (λ u, Is_true (strict_eq (of_Z (userId u)) n))
                         (users st))
          end in
      match user with
      | None => (st, [Throws])
      | Some None => (st, [Reply UserNotFound])
      | Some (Some (_, u)) => (st, [Reply (UserReport u)])
      end.

(** The loop of [/broadcast]: the sends and the two tallies. *)
Fixpoint broadcast_each (accepted : Z → bool) (msg : string)
    (recipients : list User) : list effect * nat * nat :=
  match recipients with
  | [] => ([], O, O)
  | u :: rest =>
      let '(es, ok, fail) := broadcast_each accepted msg rest in
      let sent := accepted (userId u) in
      (SendMessage (userId u) (BroadcastText msg) sent :: es,
       if sent then S ok else ok, if sent then fail else S fail)
  end.

(** [bot.command('broadcast')]. *)
Definition on_broadcast (cfg : Config) (st : State) (from : option From)
    (text : string) (accepted : Z → bool) : State * list effect :=
  if negb (isAdmin cfg from) then (st, [])
  else
    let msg := command_argument text in
    if decide (msg = "") then (st, [Reply BroadcastUsage])
    else
      let '(es, ok, fail) := broadcast_each accepted msg (users st) in
      (st, es ++ [Reply (BroadcastDone ok fail)]).

(** [bot.command('rewardslist')]. *)
Definition on_rewardslist (cfg : Config) (st : State) (from : option From)
  : State * list effect :=
  if negb (isAdmin cfg from) then (st, [])
  else
    match rewards_by_threshold st with
    | [] => (st, [Reply NoRewardsSaved])
    | rs => (st, [Reply (RewardsReport ((λ r, (rewardId r, threshold r)) <$> rs))])
    end.

(** The threshold [/reward <id> [threshold]] announces: the number given,
    or else the id as a number times the step, or else the step. *)
Definition announced_threshold (cfg : Config) (parts : list string) : number :=
  let threshold := Number (parts !! 2%nat) in
  if isNaN threshold then
    let asNum := Number (parts !! 1%nat) in
    if isFinite asNum then mul asNum (INVITES_PER_REWARD cfg)
    else INVITES_PER_REWARD cfg
  else threshold.

(** [bot.command('reward')]: [/reward <id> [threshold]] opens the upload of
    the admin. *)
Definition on_reward (cfg : Config) (st : State) (from : option From)
    (text : string) : State * list effect :=
  if negb (isAdmin cfg from) then (st, [])
  else
    let parts := trim_split text in
    match from, parts !! 1%nat with
    | Some f, Some rewardId =>
        let threshold := announced_threshold cfg parts in
        (with_pending st
           (<[from_id f := (rewardId, threshold)]> (pendingRewardUploads st)),
         [Reply (SendTheZip rewardId threshold)])
    | _, _ => (st, [Reply RewardUsage])
    end.

(** The ZIP test of the upload handler. *)
Definition isZip (doc : Document) : bool :=
  match mime_type doc with
  | Some m => truthy (Some m) && includes "zip" m
  | None => false
  end
  || match file_name doc with
     | Some n => truthy (Some n) && endsWith ".zip" (toLowerCase n)
     | None => false
     end.

(** [Reward.findOneAndUpdate({ rewardId }, { rewardId, fileId, threshold },
    { upsert: true })]. *)
Definition upsert_reward (rs : list Reward) (r : Reward) : list Reward :=
  match findOne (λ x, rewardId x = rewardId r) rs with
  | Some (i, _) => <[i := r]> rs
  | None => rs ++ [r]
  end.

(** The handler of uploaded documents.  Mongoose refuses to cast [NaN] to
    the [Number] path [threshold], in which case the update throws. *)
Definition on_document (cfg : Config) (st : State) (from : option From)
    (doc : Document) : State * list effect :=
  if negb (isAdmin cfg from) then (st, [])
  else
    match from with
    | None => (st, [])
    | Some f =>
        match pendingRewardUploads st !! from_id f with
        | None => (st, [])
        | Some (rewardId, threshold) =>
            if negb (isZip doc) then (st, [Reply PleaseSendZip])
            else if isNaN threshold then (st, [Throws])
            else
              let r := {| rewardId := rewardId; fileId := file_id doc;
                          threshold := threshold |} in
              (with_pending (with_rewards st (upsert_reward (rewards st) r))
                 (delete (from_id f) (pendingRewardUploads st)),
               [RewardUpserted rewardId; Reply (SavedReward rewardId threshold)])
        end
    end.

(** ** Join tracking *)

(** The channel test at the head of the [chat_member] handler: [true] when
    the handler goes on. *)
Definition channel_accepted (cfg : Config) (upd : ChatMemberUpdated) : bool :=
  let chatId :=
    match chat upd with
    | Some c => VNumber (of_Z (chat_id c))
    | None => VUndefined
    end in
  let chat_name := chat upd ≫= chat_username in
  let expected :=
    match CHANNEL_CHAT_ID cfg with
    | Public _ =>
        if truthy chat_name then VString ("@" +:+ default "" chat_name)
        else chatId
    | Numeric n => VNumber n
    end in
  if strict_neq chatId expected then
    match CHANNEL_CHAT_ID cfg with
    | Public name =>
        if startsWith "@" name then
          let uname :=
            if truthy chat_name then VString ("@" +:+ default "" chat_name)
            else VNull in
          negb (strict_neq uname (VString (CHANNEL_ID cfg)))
        else true
    | Numeric n => negb (strict_neq chatId (VNumber n))
    end
  else true.

(** [Referral.create(...)]: the unique index on [joinedUserId] makes the
    insert fail when a referral of that user exists. *)
Definition create_referral (fs : list Referral) (f : Referral)
  : option (list Referral) :=
  if decide (joinedUserId f ∈ joinedUserId <$> fs) then None
  else Some (fs ++ [f]).

(** The inviter after the join of [joined] is counted. *)
Definition credit (inviter : User) (joined : Z) : User :=
  let invited :=
    if decide (joined ∈ invitedUsers inviter) then invitedUsers inviter
    else invitedUsers inviter ++ [joined] in
  set_invited inviter invited (length invited).

(** The guards of the [chat_member] handler up to the insert of the
    referral: the position and the document of the inviter and the id of
    the user who joined, when the update gets that far. *)
Definition tracked_join (cfg : Config) (st : State)
    (update : option ChatMemberUpdated) : option (nat * User * Z) :=
  match update with
  | None => None
  | Some upd =>
      if negb (channel_accepted cfg upd) then None
      else
        let oldStatus := status <$> old_chat_member upd in
        let newStatus := status <$> new_chat_member upd in
        match new_chat_member upd with
        | Some joinedUser =>
            if bool_decide (newStatus = Some "member")
               && negb (bool_decide (oldStatus = Some "member"))
            then
              let joinedUserId := member_id joinedUser in
              match invite_link upd with
              | Some (String c l) =>
                  let usedInviteLink := String c l in
                  match findOne (λ u, inviteLink u = Some usedInviteLink)
                          (users st) with
                  | None => None
                  | Some (i, inviter) =>
                      if decide (userId inviter = joinedUserId) then None
                      else Some (i, inviter, joinedUserId)
                  end
              | _ => None
              end
            else None
        | None => None
        end
  end.

(** The handler of [chat_member] updates. *)
Definition on_chat_member (cfg : Config) (st : State)
    (update : option ChatMemberUpdated) (notified : bool)
    (delivered : Reward → bool) : State * list effect :=
  match tracked_join cfg st update with
  | None => (st, [])
  | Some (i, inviter, joinedUserId) =>
      let referral :=
        {| joinedUserId := joinedUserId;
           inviterUserId := userId inviter;
           chatId := match CHANNEL_CHAT_ID cfg with
                     | Numeric n => Some n
                     | Public _ => None
                     end |} in
      match create_referral (referrals st) referral with
      | None => (st, [])
      | Some fs =>
          let st := with_referrals st fs in
          let inviter := credit inviter joinedUserId in
          let st := save st i inviter in
          let es :=
            [ReferralCreated joinedUserId (userId inviter);
             UserSaved (userId inviter)] in
          let notice :=
            SendMessage (userId inviter)
              (NewMemberJoined (invitesCount inviter)) in
          if notified then
            let '(st, _, es') := sendDueRewards delivered st i inviter in
            (st, es ++ notice true :: es')
          else
            (st, es ++ [notice false;
                        ConsoleError "Failed to DM inviter or send reward:"])
      end
  end.

(** ** The bot as a transition system *)

(** Telegraf hands an update to the handler registered for it. *)
Definition handle (cfg : Config) (st : State) (u : update)
  : State * list effect :=
  match u with
  | StartCmd from answer => on_start cfg st from answer
  | LinkCmd from answer => on_link st from answer
  | MyInvitesCmd from => on_myinvites cfg st from
  | RewardsCmd from => on_rewards st from
  | TopCmd => on_top cfg st
  | HelpCmd => on_help st
  | StatsCmd from => on_stats cfg st from
  | UserCmd from text => on_user cfg st from text
  | BroadcastCmd from text accepted => on_broadcast cfg st from text accepted
  | RewardsListCmd from => on_rewardslist cfg st from
  | RewardCmd from text => on_reward cfg st from text
  | DocumentMsg from doc => on_document cfg st from doc
  | ChatMemberUpd upd notified delivered =>
      on_chat_member cfg st upd notified delivered
  end.

(** The state after handling the updates [us] one after the other. *)
Definition run_from (cfg : Config) (st : State) (us : list update) : State :=
  fold_left (λ st u, (handle cfg st u).1) us st.

Definition run (cfg : Config) (us : list update) : State :=
  run_from cfg initial us.

(** The admin-only updates. *)
Definition admin_only (u : update) : option (option From) :=
  match u with
  | StatsCmd from | UserCmd from _ | BroadcastCmd from _ _ | RewardsListCmd from
  | RewardCmd from _ | DocumentMsg from _ => Some from
  | _ => None
  end.

(** * Vocabulary of the properties

    Notions the statements below are written with: what the effects of a
    handler contain, the writes a handler is made of, the invariants of
    the stored state, and the deployment and catalog of the scenarios. *)


(** Ascending thresholds in the sense of [<=] of the language. *)
Definition ascending (a b : Reward) : Prop :=
  le (threshold a) (threshold b) = true.

(** What one pass of the loop does for the tier [r]. *)
Definition attempt (delivered : Reward → bool) (to : Z) (r : Reward)
  : list effect :=
  if delivered r then
    [SendDocument to (fileId r) (rewardId r) (threshold r) true]
  else
    [SendDocument to (fileId r) (rewardId r) (threshold r) false;
     ConsoleError "Failed to send reward"].

(** The user with the tier ids [ids] pushed onto the claimed ones. *)
Definition claim_all (u : User) (ids : list string) : User :=
  {| userId := userId u; username := username u;
     inviteLink := inviteLink u; invitedUsers := invitedUsers u;
     invitesCount := invitesCount u;
     rewardsClaimed := rewardsClaimed u ++ ids |}.

(** The rewards a pass delivered, by tier id, in the order of delivery. *)
Definition delivered_ids (delivered : Reward → bool) (st : State)
    (inviter : User) : list string :=
  rewardId <$> List.filter delivered (toSend st inviter).

(** The tier ids of the [sendDocument] calls among [es], in order. *)
Definition documents_sent (es : list effect) : list string :=
  es ≫= λ e, match e with
              | SendDocument _ _ id _ _ => [id]
              | _ => []
              end.

(** The lines written to the error console among [es]. *)
Definition errors_logged (es : list effect) : nat :=
  length (List.filter (λ e, match e with ConsoleError _ => true | _ => false end) es).

(** The number of [save]s among [es]. *)
Definition saves (es : list effect) : nat :=
  length (List.filter (λ e, match e with UserSaved _ => true | _ => false end) es).

(** The catalog and the inviter of the scenarios: tiers ["1"] at 5 invites
    and ["2"] at 10, an inviter with 12 credited joiners. *)
Definition tier (id : string) (t : Z) : Reward :=
  {| rewardId := id; fileId := "zip-" +:+ id; threshold := of_Z t |}.

Definition inviter12 (claimed : list string) : User :=
  {| userId := 7; username := Some "ann";
     inviteLink := Some "https://t.me/+ann";
     invitedUsers := [101; 102; 103; 104; 105; 106; 107; 108; 109; 110; 111; 112];
     invitesCount := 12; rewardsClaimed := claimed |}.

Definition catalog_state (catalog : list Reward) (claimed : list string) : State :=
  {| users := [inviter12 claimed]; rewards := catalog; referrals := [];
     pendingRewardUploads := ∅ |}.

(** The [Reward] collection has a unique index on [rewardId]. *)
Definition unique_rewardIds (st : State) : Prop :=
  NoDup (rewardId <$> rewards st).

(** Delivery of tier ["1"] only, and of every tier. *)
Definition only_tier_1 (r : Reward) : bool := bool_decide (rewardId r = "1").
Definition every_tier (r : Reward) : bool := true.

(** The joined users that have a referral, in the order of insertion. *)
Definition ledger (st : State) : list Z := joinedUserId <$> referrals st.

(** The writes the handlers are made of: a user document is created; a
    user document is saved with a new name, a new link or more claimed
    tiers; a referral is inserted and the credit saved on its inviter; the
    pending uploads change; a reward is upserted. *)
Inductive write : State → State → Prop :=
| write_create st uid name :
    write st (with_users st (users st ++ [new_user uid name]))
| write_username st i u name :
    users st !! i = Some u →
    write st (save st i (set_username u name))
| write_link st i u link :
    users st !! i = Some u →
    write st (save st i (set_inviteLink u link))
| write_claims st i u ids :
    users st !! i = Some u →
    write st (save st i (claim_all u ids))
| write_referral st i u f :
    users st !! i = Some u →
    joinedUserId f ∉ ledger st →
    write st (save (with_referrals st (referrals st ++ [f])) i
                (credit u (joinedUserId f)))
| write_pending st p :
    write st (with_pending st p)
| write_reward st r :
    write st (with_rewards st (upsert_reward (rewards st) r)).

(** The cached credit count of a profile is the size of its list of
    credited joiners. *)
Definition credited (u : User) : Prop :=
  invitesCount u = length (invitedUsers u).

(** What holds of every state the bot can be in: the cached counts are
    right, no user has two referrals, every credited joiner has a
    referral, and no two rewards share an id. *)
Record consistent (st : State) : Prop := {
  counts_cached : Forall credited (users st);
  ledger_unique : NoDup (ledger st);
  invited_recorded :
    ∀ u j, u ∈ users st → j ∈ invitedUsers u → j ∈ ledger st;
  rewards_unique : unique_rewardIds st
}.

(** A small deployment used to exercise the statements: the channel is
    public, user 99 is the admin and a reward is unlocked every 5 invites. *)
Module Demo.

Definition cfg : Config :=
  {| CHANNEL_ID := "@wallswipe"; ADMIN_ID := of_Z 99;
     INVITES_PER_REWARD := of_Z 5; LEADERBOARD_SIZE := 10 |}.

Definition admin : option From :=
  Some {| from_id := 99; from_username := Some "boss"; first_name := "Boss" |}.

Definition ann : option From :=
  Some {| from_id := 7; from_username := Some "ann"; first_name := "Ann" |}.

Definition ann_link : string := "https://t.me/+ann".

Definition zip (file : string) : Document :=
  {| mime_type := Some "application/zip"; file_name := Some "pack.zip";
     file_id := file |}.

Definition channel : Chat :=
  {| chat_id := -1001; chat_username := Some "wallswipe" |}.

(** The user [joined] becomes a member of [chat] through [link]. *)
Definition join (chat : Chat) (joined : Z) (link : option string)
  : option ChatMemberUpdated :=
  Some {| chat := Some chat;
          old_chat_member := Some {| status := "left"; member_id := joined |};
          new_chat_member := Some {| status := "member"; member_id := joined |};
          invite_link := link |}.

(** Ann has asked for her link, and the admin has registered tier ["1"]
    with the default threshold. *)
Definition setup : list update :=
  [StartCmd ann (Some ann_link);
   RewardCmd admin "/reward 1"; DocumentMsg admin (zip "zip-1")].

End Demo.

(** The referral the handler inserts for the join of [j] through the link
    of [inviter]. *)
Definition referral_of (cfg : Config) (inviter : User) (j : Z) : Referral :=
  {| joinedUserId := j;
     inviterUserId := userId inviter;
     chatId := match CHANNEL_CHAT_ID cfg with
               | Numeric n => Some n
               | Public _ => None
               end |}.

(** The state once the referral is inserted and the credited inviter
    saved. *)
Definition committed (cfg : Config) (st : State) (i : nat) (inviter : User)
    (j : Z) : State :=
  save (with_referrals st (referrals st ++ [referral_of cfg inviter j])) i
    (credit inviter j).

(** The reading of the specification for an attributed join: the state
    that results is the one the dispatcher leaves when run on the credited
    inviter. *)
Definition dispatch_follows_every_attribution : Prop :=
  ∀ cfg st upd i inviter j notified delivered,
    tracked_join cfg st upd = Some (i, inviter, j) → j ∉ ledger st →
    (on_chat_member cfg st upd notified delivered).1
    = (sendDueRewards delivered (committed cfg st i inviter j) i
         (credit inviter j)).1.1.

(** Ann has her link and tier ["1"] is registered at one invite. *)
Definition one_invite_tier : list update :=
  [StartCmd Demo.ann (Some Demo.ann_link);
   RewardCmd Demo.admin "/reward 1 1"; DocumentMsg Demo.admin (Demo.zip "zip-1")].

(** The reasons for which the guards of the handler drop an update: the
    channel test fails, the transition is not one into ["member"] from
    another status, no link was used, no profile owns the link, or the
    owner of the link is the user who joined. *)
Inductive dropped (cfg : Config) (st : State) (upd : ChatMemberUpdated) : Prop :=
| other_channel :
    channel_accepted cfg upd = false → dropped cfg st upd
| not_a_join :
    status <$> new_chat_member upd ≠ Some "member"
    ∨ status <$> old_chat_member upd = Some "member" →
    dropped cfg st upd
| no_link :
    truthy (invite_link upd) = false → dropped cfg st upd
| unknown_link link :
    invite_link upd = Some link →
    findOne (λ u, inviteLink u = Some link) (users st) = None →
    dropped cfg st upd
| self_invite link i inviter joined :
    invite_link upd = Some link →
    findOne (λ u, inviteLink u = Some link) (users st) = Some (i, inviter) →
    new_chat_member upd = Some joined →
    userId inviter = member_id joined →
    dropped cfg st upd.

(** A chat that is not the configured channel: another id and no user
    name. *)
Definition unnamed_chat : Chat :=
  {| chat_id := -1002; chat_username := None |}.



(** ** Vocabulary of the further properties *)

(** The writes of the handlers with what the handler has checked before
    making them: a user is created only when no profile has the id; a link
    is saved only on a profile without one; the tiers claimed are the ones
    a pass of [sendDueRewards] delivered; a referral is inserted only for a
    joined user without one and other than the inviter; the pending
    uploads and the catalog are written for the admin only. *)
Inductive edit (cfg : Config) : State → State → Prop :=
| edit_create st uid name :
    uid ∉ userId <$> users st →
    edit cfg st (with_users st (users st ++ [new_user uid name]))
| edit_username st i u name :
    users st !! i = Some u →
    edit cfg st (save st i (set_username u name))
| edit_link st i u link :
    users st !! i = Some u → truthy (inviteLink u) = false →
    edit cfg st (save st i (set_inviteLink u link))
| edit_claims st i u delivered :
    users st !! i = Some u →
    edit cfg st (save st i (claim_all u (delivered_ids delivered st u)))
| edit_referral st i u j :
    users st !! i = Some u → j ∉ ledger st → userId u ≠ j →
    edit cfg st (committed cfg st i u j)
| edit_pending st f id thr :
    isAdmin cfg (Some f) = true →
    edit cfg st
      (with_pending st
         (<[from_id f := (id, thr)]> (pendingRewardUploads st)))
| edit_reward st f r :
    isAdmin cfg (Some f) = true → isNaN (threshold r) = false →
    edit cfg st
      (with_pending (with_rewards st (upsert_reward (rewards st) r))
         (delete (from_id f) (pendingRewardUploads st))).

(** A profile credits no joiner twice and never its own user. *)
Definition credits_distinct (u : User) : Prop :=
  NoDup (invitedUsers u) ∧ userId u ∉ invitedUsers u.

(** The claimed tiers of a profile are distinct tiers of the catalog. *)
Definition claims_registered (st : State) (u : User) : Prop :=
  NoDup (rewardsClaimed u)
  ∧ ∀ id, id ∈ rewardsClaimed u → id ∈ rewardId <$> rewards st.

(** What the checks of the handlers keep true of the stored state. *)
Record sound (cfg : Config) (st : State) : Prop := {
  userIds_unique : NoDup (userId <$> users st);
  credits_sound : Forall credits_distinct (users st);
  credited_once :
    ∀ i i' u u' j,
      users st !! i = Some u → users st !! i' = Some u' →
      j ∈ invitedUsers u → j ∈ invitedUsers u' → i = i';
  referrals_credited :
    ∀ f, f ∈ referrals st →
      inviterUserId f ≠ joinedUserId f
      ∧ ∃ u, u ∈ users st ∧ userId u = inviterUserId f
             ∧ joinedUserId f ∈ invitedUsers u;
  credits_total :
    sum_list (invitesCount <$> users st) = length (referrals st);
  claims_sound : Forall (claims_registered st) (users st);
  pending_admin :
    ∀ k p, pendingRewardUploads st !! k = Some p →
           strict_eq (of_Z k) (ADMIN_ID cfg) = true
}.

(** Between [st] and [st'] nothing but the name and the link of the profile
    of user [uid] has changed, or that profile was created: the catalog, the
    referrals and the pending uploads are the same, and every profile of
    [st] is still stored with its credits and claimed tiers. *)
Definition only_profile_of (uid : Z) (st st' : State) : Prop :=
  rewards st' = rewards st
  ∧ referrals st' = referrals st
  ∧ pendingRewardUploads st' = pendingRewardUploads st
  ∧ ∀ k p, users st !! k = Some p →
      ∃ p', users st' !! k = Some p'
            ∧ userId p' = userId p
            ∧ invitedUsers p' = invitedUsers p
            ∧ invitesCount p' = invitesCount p
            ∧ rewardsClaimed p' = rewardsClaimed p
            ∧ (userId p ≠ uid → p' = p).

(** The updates that only read the database. *)
Definition read_only (u : update) : bool :=
  match u with
  | TopCmd | HelpCmd | StatsCmd _ | UserCmd _ _ | BroadcastCmd _ _ _
  | RewardsListCmd _ => true
  | _ => false
  end.

(** The commands every user may send that write the sender's profile. *)
Definition profile_command (u : update) : option (option From) :=
  match u with
  | StartCmd from _ | LinkCmd from _ | MyInvitesCmd from | RewardsCmd from =>
      Some from
  | _ => None
  end.

(** The two updates of the registration of a reward. *)
Definition registration (u : update) : bool :=
  match u with
  | RewardCmd _ _ | DocumentMsg _ _ => true
  | _ => false
  end.

(** * Properties *)

(** ** Arithmetic of the number model on integers *)
Section NumberFacts.










End NumberFacts.

(** ** Conversions and splitting on sample texts *)

Example Number_samples :
  Number_of_string <$> ["12"; "-3"; "2.5"; "1e3"; ".5"; "0x1F"; "Infinity";
                         "abc"; ""; "12abc"]
  = [of_Z 12; of_Z (-3); of_Q (5 # 2); of_Z 1000; of_Q (1 # 2); of_Z 31;
     Infinity false; NaN; of_Z 0; NaN].
Proof. reflexivity. Qed.

Example Number_undefined : Number None = NaN.
Proof. reflexivity. Qed.

Example trim_split_samples :
  trim_split "/reward 1 0" = ["/reward"; "1"; "0"]
  ∧ trim_split "  /reward   gold  " = ["/reward"; "gold"]
  ∧ trim_split "" = [""]
  ∧ command_argument "/user  @bob x " = "@bob x".
Proof. by vm_compute. Qed.

(** ** Progress computation *)





(** Outside the positive integers the step is taken as it is: the
    startup check does not exclude such a configuration. *)
Example progressText_fractional_step :
  progressText (of_nat 7) (of_Q (5 # 2)) = (of_Z 10, of_Q (1 # 2)).
Proof. reflexivity. Qed.

Example progressText_zero_step :
  progressText (of_nat 7) (of_Z 0) = (NaN, NaN).
Proof. reflexivity. Qed.

(** ** Reward dispatch *)

Lemma sorts_before_total (x y : number) :
  sorts_before x y = true ∨ sorts_before y x = true.
Proof.
  destruct x as [|[]|p], y as [|[]|q]; simpl; auto.
  destruct (Qlt_le_dec q p) as [H|H].
  - right. apply Qle_bool_iff. by apply Qlt_le_weak.
  - left. by apply Qle_bool_iff.
Qed.

Lemma sorts_before_trans (x y z : number) :
  sorts_before x y = true → sorts_before y z = true → sorts_before x z = true.
Proof.
  destruct x as [|[]|p], y as [|[]|q], z as [|[]|r]; simpl; try done.
  rewrite !Qle_bool_iff. apply Qle_trans.
Qed.

#[global] Instance by_threshold_total : Total by_threshold.
Proof.
  intros a b. unfold by_threshold.
  destruct (sorts_before_total (threshold a) (threshold b)) as [->| ->];
    simpl; auto.
Qed.

#[global] Instance by_threshold_transitive : Transitive by_threshold.
Proof.
  intros a b c. unfold by_threshold. rewrite !Is_true_true.
  apply sorts_before_trans.
Qed.

Lemma StronglySorted_filter {A} (R : relation A) (f : A → bool) (l : list A) :
  StronglySorted R l → StronglySorted R (List.filter f l).
Proof.
  induction 1 as [|x l Hl IH Hx]; simpl; [constructor|].
  destruct (f x); [|done]. constructor; [done|].
  apply Forall_forall. intros y Hy.
  apply list_elem_of_In, filter_In in Hy as [Hy _].
  rewrite Forall_forall in Hx. apply Hx. by apply list_elem_of_In.
Qed.

Lemma StronglySorted_weaken {A} (R R' : relation A) (P : A → Prop) (l : list A) :
  (∀ a b, P a → P b → R a b → R' a b) →
  Forall P l → StronglySorted R l → StronglySorted R' l.
Proof.
  intros HR HP Hl. induction Hl as [|x l Hl IH Hx]; [constructor|].
  apply Forall_cons in HP as [Px Pl]. constructor; [by apply IH|].
  rewrite Forall_forall in *. intros y Hy. apply HR; auto.
Qed.

Lemma due_true (inviter : User) (r : Reward) :
  due inviter r = true ↔
  le (threshold r) (of_nat (invitesCount inviter)) = true
  ∧ rewardId r ∉ rewardsClaimed inviter.
Proof.
  unfold due. rewrite andb_true_iff, negb_true_iff, bool_decide_eq_false.
  done.
Qed.

Lemma elem_of_toSend (st : State) (inviter : User) (r : Reward) :
  r ∈ toSend st inviter ↔
  r ∈ rewards st
  ∧ le (threshold r) (of_nat (invitesCount inviter)) = true
  ∧ rewardId r ∉ rewardsClaimed inviter.
Proof.
  unfold toSend, rewards_by_threshold.
  rewrite list_elem_of_In, filter_In, <- list_elem_of_In, due_true.
  by rewrite merge_sort_Permutation.
Qed.

Lemma toSend_ascending (st : State) (inviter : User) :
  StronglySorted ascending (toSend st inviter).
Proof.
  apply (StronglySorted_weaken by_threshold _
           (λ r, le (threshold r) (of_nat (invitesCount inviter)) = true)).
  - unfold by_threshold, ascending. intros a b Ha Hb Hab.
    apply Is_true_true in Hab.
    destruct (threshold a), (threshold b); done.
  - apply Forall_forall. intros r Hr. by apply elem_of_toSend in Hr as (_ & ? & _).
  - apply StronglySorted_filter, StronglySorted_merge_sort; apply _.
Qed.

Lemma send_each_spec (delivered : Reward → bool) (l : list Reward) (u : User) :
  send_each delivered u l
  = (claim_all u (rewardId <$> List.filter delivered l),
     l ≫= attempt delivered (userId u)).
Proof.
  unfold claim_all. revert u. induction l as [|r l IH]; intros u; simpl.
  - rewrite app_nil_r. by destruct u.
  - unfold attempt at 1. destruct (delivered r).
    + rewrite IH. simpl. by rewrite <- app_assoc.
    + by rewrite IH.
Qed.

Lemma sendDueRewards_spec (delivered : Reward → bool) (st : State) (i : nat)
    (inviter : User) :
  sendDueRewards delivered st i inviter
  = let inviter' := claim_all inviter (delivered_ids delivered st inviter) in
    match toSend st inviter with
    | [] => (st, inviter, [])
    | _ :: _ =>
        (save st i inviter', inviter',
         (toSend st inviter ≫= attempt delivered (userId inviter))
         ++ [UserSaved (userId inviter)])
    end.
Proof.
  unfold sendDueRewards, delivered_ids.
  rewrite send_each_spec. unfold toSend.
  destruct (rewards_by_threshold st) as [|r rs] eqn:E; [done|].
  destruct (List.filter (due inviter) (r :: rs)); simpl; [|done].
  unfold claim_all. rewrite app_nil_r. by destruct inviter.
Qed.

Lemma documents_sent_app (es es' : list effect) :
  documents_sent (es ++ es') = documents_sent es ++ documents_sent es'.
Proof. unfold documents_sent. apply bind_app. Qed.

Lemma documents_sent_attempts (delivered : Reward → bool) (to : Z)
    (l : list Reward) :
  documents_sent (l ≫= attempt delivered to) = rewardId <$> l.
Proof.
  induction l as [|r l IH]; [done|].
  change ((r :: l) ≫= attempt delivered to)
    with (attempt delivered to r ++ (l ≫= attempt delivered to)).
  rewrite documents_sent_app, IH. unfold attempt. by destruct (delivered r).
Qed.

Lemma errors_logged_attempts (delivered : Reward → bool) (to : Z)
    (l : list Reward) :
  errors_logged (l ≫= attempt delivered to)
  = length (List.filter (λ r, negb (delivered r)) l).
Proof.
  unfold errors_logged. induction l as [|r l IH]; [done|].
  change ((r :: l) ≫= attempt delivered to)
    with (attempt delivered to r ++ (l ≫= attempt delivered to)).
  rewrite List.filter_app, length_app, IH. unfold attempt. simpl.
  by destruct (delivered r).
Qed.

Lemma saves_attempts (delivered : Reward → bool) (to : Z) (l : list Reward) :
  saves (l ≫= attempt delivered to) = O.
Proof.
  unfold saves. induction l as [|r l IH]; [done|].
  change ((r :: l) ≫= attempt delivered to)
    with (attempt delivered to r ++ (l ≫= attempt delivered to)).
  rewrite List.filter_app, length_app, IH. unfold attempt.
  by destruct (delivered r).
Qed.

Lemma filter_Permutation_bool {A} (f : A → bool) (l l' : list A) :
  l ≡ₚ l' → List.filter f l ≡ₚ List.filter f l'.
Proof.
  induction 1 as [|x l l' _ IH|x y l|l l' l'' _ IH _ IH']; simpl.
  - done.
  - destruct (f x); by rewrite IH.
  - destruct (f x), (f y); try done. apply perm_swap.
  - by rewrite IH.
Qed.

Lemma toSend_Permutation (st st' : State) (inviter : User) :
  rewards st' ≡ₚ rewards st → toSend st' inviter ≡ₚ toSend st inviter.
Proof.
  intros H. unfold toSend, rewards_by_threshold.
  apply filter_Permutation_bool. by rewrite !merge_sort_Permutation.
Qed.

(** C2: the tiers [sendDueRewards] tries to deliver are exactly the tiers of
    the catalog whose threshold is at most the inviter's credit count and
    whose id is not among the claimed ones; they are tried in ascending
    order of threshold, whatever the order the catalog was registered in.
    With 12 credits, nothing claimed and tiers 1 (threshold 5) and 2
    (threshold 10), both are delivered and the claimed ids end as 1, 2. *)
Theorem sendDueRewards_due_in_threshold_order (delivered : Reward → bool)
    (st : State) (i : nat) (inviter : User) :
  (∀ r, r ∈ toSend st inviter ↔
        r ∈ rewards st
        ∧ le (threshold r) (of_nat (invitesCount inviter)) = true
        ∧ rewardId r ∉ rewardsClaimed inviter)
  ∧ documents_sent (sendDueRewards delivered st i inviter).2
    = rewardId <$> toSend st inviter
  ∧ StronglySorted ascending (toSend st inviter)
  ∧ (∀ st', rewards st' ≡ₚ rewards st →
            toSend st' inviter ≡ₚ toSend st inviter
            ∧ StronglySorted ascending (toSend st' inviter))
  ∧ (∀ catalog, catalog ≡ₚ [tier "1" 5; tier "2" 10] →
       sendDueRewards (λ _, true) (catalog_state catalog []) 0 (inviter12 [])
       = (catalog_state catalog ["1"; "2"], inviter12 ["1"; "2"],
          [SendDocument 7 "zip-1" "1" (of_Z 5) true;
           SendDocument 7 "zip-2" "2" (of_Z 10) true;
           UserSaved 7])).
Proof.
  split; [apply elem_of_toSend|].
  split.
  { rewrite sendDueRewards_spec. cbv zeta.
    destruct (toSend st inviter) as [|r l] eqn:E; [done|]. cbn [snd].
    rewrite documents_sent_app, documents_sent_attempts. apply app_nil_r. }
  split; [apply toSend_ascending|].
  split.
  { intros st' H. split; [by apply toSend_Permutation | apply toSend_ascending]. }
  intros catalog H.
  symmetry in H. apply Permutation_length_2_inv in H as [-> | ->]; reflexivity.
Qed.

Lemma delivered_ids_elem_of (delivered : Reward → bool) (st : State)
    (inviter : User) (id : string) :
  id ∈ delivered_ids delivered st inviter ↔
  ∃ r, r ∈ toSend st inviter ∧ delivered r = true ∧ rewardId r = id.
Proof.
  unfold delivered_ids. rewrite list_elem_of_fmap. split.
  - intros (r & -> & Hr). apply list_elem_of_In, filter_In in Hr as [Hr Hd].
    exists r. by rewrite list_elem_of_In.
  - intros (r & Hr & Hd & <-). exists r. split; [done|].
    apply list_elem_of_In, filter_In. by rewrite <- list_elem_of_In.
Qed.

Lemma unique_rewardIds_inj (st : State) (r r' : Reward) :
  unique_rewardIds st → r ∈ rewards st → r' ∈ rewards st →
  rewardId r = rewardId r' → r = r'.
Proof.
  unfold unique_rewardIds. intros Hnd Hr Hr' Hid.
  apply list_elem_of_lookup in Hr as [j Hj], Hr' as [j' Hj'].
  assert (j = j') as <-.
  { eapply NoDup_lookup; [done| |]; rewrite list_lookup_fmap.
    - by rewrite Hj.
    - by rewrite Hj', Hid. }
  congruence.
Qed.

Lemma rewards_save (st : State) (i : nat) (u : User) :
  rewards (save st i u) = rewards st.
Proof. done. Qed.

Lemma toSend_save (st : State) (i : nat) (u inviter : User) :
  toSend (save st i u) inviter = toSend st inviter.
Proof. done. Qed.

(** C3: in [sendDueRewards] every due tier is tried, in order, also after an
    earlier one failed; each failure writes one line to the error console;
    the ids of the tiers that were delivered, and only those, are appended
    to the claimed ids, which are saved once, after the last attempt.  With
    unique tier ids, a tier whose delivery failed stays unclaimed, is due
    again at the next call with the same credit count, and is claimed when
    its delivery then succeeds.  Tier 1 delivered and tier 2 failing leaves
    1 claimed; the next call, tier 2 delivered, leaves 1 and 2 claimed. *)
Theorem sendDueRewards_isolates_failures (delivered : Reward → bool)
    (st : State) (i : nat) (inviter : User) :
  unique_rewardIds st →
  ∀ st' inviter' es,
    sendDueRewards delivered st i inviter = (st', inviter', es) →
    documents_sent es = rewardId <$> toSend st inviter
    ∧ errors_logged es
      = length (List.filter (λ r, negb (delivered r)) (toSend st inviter))
    ∧ rewardsClaimed inviter'
      = rewardsClaimed inviter ++ delivered_ids delivered st inviter
    ∧ invitesCount inviter' = invitesCount inviter
    ∧ match toSend st inviter with
      | [] => st' = st ∧ es = []
      | _ :: _ =>
          st' = save st i inviter'
          ∧ saves es = 1%nat
          ∧ last es = Some (UserSaved (userId inviter))
      end
    ∧ (∀ r, r ∈ toSend st inviter → delivered r = false →
            (rewardId r ∉ rewardsClaimed inviter')
            ∧ r ∈ toSend st' inviter'
            ∧ ∀ delivered' j,
                delivered' r = true →
                rewardId r
                ∈ rewardsClaimed ((sendDueRewards delivered' st' j inviter').1.2))
    ∧ let first := sendDueRewards only_tier_1
                     (catalog_state [tier "1" 5; tier "2" 10] []) 0
                     (inviter12 []) in
      let second := sendDueRewards every_tier first.1.1 0 first.1.2 in
      rewardsClaimed first.1.2 = ["1"]
      ∧ users first.1.1 = [inviter12 ["1"]]
      ∧ documents_sent first.2 = ["1"; "2"]
      ∧ errors_logged first.2 = 1%nat
      ∧ documents_sent second.2 = ["2"]
      ∧ rewardsClaimed second.1.2 = ["1"; "2"]
      ∧ users second.1.1 = [inviter12 ["1"; "2"]].
Proof.
  intros Huniq st' inviter' es Hrun.
  rewrite sendDueRewards_spec in Hrun. cbv zeta in Hrun.
  assert (rewardsClaimed inviter'
          = rewardsClaimed inviter ++ delivered_ids delivered st inviter
          ∧ invitesCount inviter' = invitesCount inviter
          ∧ rewards st' = rewards st) as (Hclaimed & Hcount & Hrewards).
  { destruct (toSend st inviter) eqn:E; simplify_eq; simpl; [|done].
    unfold delivered_ids. rewrite E. simpl. by rewrite app_nil_r. }
  assert (∀ r, r ∈ toSend st inviter → delivered r = false →
               rewardId r ∉ rewardsClaimed inviter') as Hfailed.
  { intros r Hr Hd. rewrite Hclaimed, elem_of_app.
    intros [Hin|Hin].
    - by apply elem_of_toSend in Hr as (_ & _ & ?).
    - apply delivered_ids_elem_of in Hin as (r' & Hr' & Hd' & Hid).
      assert (r' = r) as ->; [|congruence].
      apply elem_of_toSend in Hr as (? & _), Hr' as (? & _).
      by eapply unique_rewardIds_inj. }
  assert (∀ r, r ∈ toSend st inviter → delivered r = false →
               r ∈ toSend st' inviter') as Hretry.
  { intros r Hr Hd. apply elem_of_toSend. rewrite Hrewards, Hcount.
    pose proof (Hfailed r Hr Hd).
    by apply elem_of_toSend in Hr as (? & ? & _). }
  split_and!.
  - destruct (toSend st inviter) eqn:E; simplify_eq; [done|].
    rewrite documents_sent_app, documents_sent_attempts. apply app_nil_r.
  - destruct (toSend st inviter) eqn:E; simplify_eq; [done|].
    unfold errors_logged. rewrite List.filter_app, length_app.
    fold (errors_logged ((r :: l) ≫= attempt delivered (userId inviter))).
    rewrite errors_logged_attempts. simpl. lia.
  - done.
  - done.
  - destruct (toSend st inviter) eqn:E; simplify_eq; [done|].
    split_and!; [done| |by rewrite last_snoc].
    unfold saves. rewrite List.filter_app, length_app.
    fold (saves ((r :: l) ≫= attempt delivered (userId inviter))).
    by rewrite saves_attempts.
  - intros r Hr Hd. split_and!; [by apply Hfailed|by apply Hretry|].
    intros delivered' j Hd'.
    rewrite sendDueRewards_spec. cbv zeta.
    pose proof (Hretry r Hr Hd) as Hr'.
    destruct (toSend st' inviter') eqn:E; [by apply elem_of_nil in Hr'|].
    cbn [fst snd rewardsClaimed]. apply elem_of_app. right.
    apply delivered_ids_elem_of. exists r. by rewrite E.
  - vm_compute. done.
Qed.

Lemma sendDueRewards_isolates_failures_witness :
  let st := catalog_state [tier "2" 10; tier "1" 5] [] in
  let first := sendDueRewards only_tier_1 st 0 (inviter12 []) in
  unique_rewardIds st
  ∧ rewardsClaimed (first.1.2) = ["1"]
  ∧ tier "2" 10 ∈ toSend (first.1.1) (first.1.2).
Proof.
  intros st first.
  assert (unique_rewardIds st) as Hu.
  { unfold unique_rewardIds. apply (bool_decide_unpack _). by vm_compute. }
  destruct (sendDueRewards_isolates_failures only_tier_1 st 0 (inviter12 [])
              Hu (first.1.1) (first.1.2) (first.2) eq_refl)
    as (_ & _ & Hc & _ & _ & Hf & _).
  split_and!; [done|done|].
  apply (Hf (tier "2" 10)); [|reflexivity].
  apply elem_of_toSend. split_and!.
  - apply list_elem_of_here.
  - reflexivity.
  - apply not_elem_of_nil.
Defined.

(** ** The writes of the handlers *)

Lemma lookup_save_eq (st : State) (i : nat) (u0 u : User) :
  users st !! i = Some u0 → users (save st i u) !! i = Some u.
Proof.
  intros H. simpl. apply list_lookup_insert_eq. by eapply lookup_lt_Some.
Qed.

Lemma findOne_Some {A} (P : A → Prop) `{∀ x, Decision (P x)} (l : list A)
    (i : nat) (x : A) :
  findOne P l = Some (i, x) → l !! i = Some x ∧ P x.
Proof. unfold findOne. rewrite list_find_Some. by intros (? & ? & _). Qed.

Lemma ensureUser_writes (st : State) (from : From) :
  let '(st', i, user, _) := ensureUser st from in
  rtc write st st' ∧ users st' !! i = Some user.
Proof.
  unfold ensureUser.
  destruct (findOne _ (users st)) as [[i u]|] eqn:E.
  - apply findOne_Some in E as [Hi _].
    destruct (decide _).
    + done.
    + split; [|by eapply lookup_save_eq].
      apply rtc_once. by constructor.
  - split; [apply rtc_once; constructor|].
    simpl. by rewrite lookup_app_r, Nat.sub_diag.
Qed.

Lemma getOrCreateInviteLinkForUser_writes (answer : option string)
    (st : State) (i : nat) (user : User) :
  users st !! i = Some user →
  rtc write st (getOrCreateInviteLinkForUser answer st i user).1.1.
Proof.
  intros Hi. unfold getOrCreateInviteLinkForUser.
  destruct (truthy _); [done|]. destruct answer; [|done].
  apply rtc_once. by constructor.
Qed.

Lemma sendDueRewards_writes (delivered : Reward → bool) (st : State)
    (i : nat) (inviter : User) :
  users st !! i = Some inviter →
  rtc write st (sendDueRewards delivered st i inviter).1.1.
Proof.
  intros Hi. rewrite sendDueRewards_spec. cbv zeta.
  destruct (toSend st inviter); [done|].
  apply rtc_once. by constructor.
Qed.

Lemma create_referral_Some (fs fs' : list Referral) (f : Referral) :
  create_referral fs f = Some fs' →
  (joinedUserId f ∉ joinedUserId <$> fs) ∧ fs' = fs ++ [f].
Proof.
  unfold create_referral. destruct (decide _); [done|]. by intros [= <-].
Qed.

Lemma tracked_join_Some (cfg : Config) (st : State)
    (update : option ChatMemberUpdated) (i : nat) (inviter : User) (j : Z) :
  tracked_join cfg st update = Some (i, inviter, j) →
  users st !! i = Some inviter
  ∧ userId inviter ≠ j
  ∧ ∃ upd joined,
      update = Some upd
      ∧ channel_accepted cfg upd = true
      ∧ new_chat_member upd = Some joined
      ∧ member_id joined = j
      ∧ status joined = "member"
      ∧ status <$> old_chat_member upd ≠ Some "member"
      ∧ truthy (invite_link upd) = true
      ∧ inviteLink inviter = invite_link upd.
Proof.
  unfold tracked_join. intros H.
  destruct update as [upd|]; [|done].
  destruct (channel_accepted cfg upd) eqn:Hc; [|done]. simpl in H.
  destruct (new_chat_member upd) as [joined|] eqn:Hj; [|done].
  destruct (bool_decide _ && _) eqn:Hs; [|done].
  apply andb_true_iff in Hs as [Hnew Hold].
  apply bool_decide_eq_true in Hnew.
  apply negb_true_iff, bool_decide_eq_false in Hold.
  destruct (invite_link upd) as [[|c l]|] eqn:Hl; [done| |done].
  destruct (findOne _ (users st)) as [[i' inviter']|] eqn:E; [|done].
  apply findOne_Some in E as [Hi Hlink].
  destruct (decide _); [done|]. simplify_eq.
  split_and!; [done|done|]. exists upd, joined.
  split_and!; try done.
  - simpl in Hnew. congruence.
  - by rewrite Hl.
  - congruence.
Qed.

Lemma on_chat_member_writes (cfg : Config) (st : State)
    (upd : option ChatMemberUpdated) (notified : bool)
    (delivered : Reward → bool) :
  rtc write st (on_chat_member cfg st upd notified delivered).1.
Proof.
  unfold on_chat_member.
  destruct (tracked_join cfg st upd) as [[[i inviter] j]|] eqn:E; [|done].
  apply tracked_join_Some in E as (Hi & _).
  destruct (create_referral _ _) as [fs|] eqn:Ef; [|done].
  apply create_referral_Some in Ef as [Hfresh ->].
  set (f := {| joinedUserId := j |}) in *.
  set (st1 := save _ i _).
  assert (write st st1) as Hw.
  { by apply (write_referral st i inviter f). }
  destruct notified; [|by apply rtc_once].
  pose proof (sendDueRewards_writes delivered st1 i (credit inviter j)) as Hs.
  destruct (sendDueRewards _ _ _ _) as [[st2 ?] ?]. simpl in *.
  eapply rtc_l; [done|]. apply Hs. by eapply lookup_save_eq.
Qed.

(** Every handler changes the state by a sequence of writes. *)
Lemma handle_writes (cfg : Config) (st : State) (u : update) :
  rtc write st (handle cfg st u).1.
Proof.
  destruct u as [from answer|from answer|from|from| | |from|from text
                |from text accepted|from|from text|from doc
                |upd notified delivered]; simpl.
  - unfold on_start. destruct from as [f|]; [|done].
    pose proof (ensureUser_writes st f) as H.
    destruct (ensureUser st f) as [[[st1 i] user] es]. destruct H as [H Hi].
    pose proof (getOrCreateInviteLinkForUser_writes answer st1 i user Hi) as H'.
    destruct (getOrCreateInviteLinkForUser _ _ _ _) as [[st2 [l|]] es'];
      simpl in *; by etrans.
  - unfold on_link. destruct from as [f|]; [|done].
    pose proof (ensureUser_writes st f) as H.
    destruct (ensureUser st f) as [[[st1 i] user] es]. destruct H as [H Hi].
    pose proof (getOrCreateInviteLinkForUser_writes answer st1 i user Hi) as H'.
    destruct (getOrCreateInviteLinkForUser _ _ _ _) as [[st2 [l|]] es'];
      simpl in *; by etrans.
  - unfold on_myinvites. destruct from as [f|]; [|done].
    pose proof (ensureUser_writes st f) as H.
    destruct (ensureUser st f) as [[[st1 i] user] es]. destruct H as [H Hi].
    by destruct (progressText _ _).
  - unfold on_rewards. destruct from as [f|]; [|done].
    pose proof (ensureUser_writes st f) as H.
    destruct (ensureUser st f) as [[[st1 i] user] es]. destruct H as [H Hi].
    by destruct (rewardsClaimed user).
  - unfold on_top. by destruct (limit _ _).
  - done.
  - unfold on_stats. by destruct (negb _).
  - unfold on_user. destruct (negb _); [done|].
    destruct (decide _); [done|].
    by repeat case_match.
  - unfold on_broadcast. destruct (negb _); [done|].
    destruct (decide _); [done|]. by destruct (broadcast_each _ _ _) as [[??]?].
  - unfold on_rewardslist. destruct (negb _); [done|].
    by destruct (rewards_by_threshold st).
  - unfold on_reward. destruct (negb _); [done|].
    destruct from as [f|]; [|done].
    destruct (trim_split text !! 1%nat); [|done].
    apply rtc_once. apply (write_pending st).
  - unfold on_document. destruct (negb _); [done|].
    destruct from as [f|]; [|done].
    destruct (pendingRewardUploads st !! from_id f) as [[id thr]|]; [|done].
    destruct (negb _); [done|]. destruct (isNaN thr); [done|]. simpl.
    eapply rtc_l; [apply write_reward|].
    apply rtc_once. apply (write_pending (with_rewards st _)).
  - apply on_chat_member_writes.
Qed.

Lemma run_from_writes (cfg : Config) (us : list update) (st : State) :
  rtc write st (run_from cfg st us).
Proof.
  revert st. induction us as [|u us IH]; intros st; [done|].
  simpl. etrans; [apply handle_writes|apply IH].
Qed.

(** ** Invariants of the stored state *)

Lemma elem_of_insert_inv {A} (l : list A) (i : nat) (x y : A) :
  y ∈ <[i := x]> l → y = x ∨ y ∈ l.
Proof.
  intros [j Hj]%list_elem_of_lookup.
  apply list_lookup_insert_Some in Hj as [(_ & -> & _)|[_ Hj]]; [by left|].
  right. by eapply list_elem_of_lookup_2.
Qed.

Lemma credit_credited (u : User) (j : Z) : credited (credit u j).
Proof. done. Qed.

Lemma credit_invited (u : User) (j x : Z) :
  x ∈ invitedUsers (credit u j) ↔ x = j ∨ x ∈ invitedUsers u.
Proof.
  unfold credit. simpl. destruct (decide _) as [Hin|Hin].
  - split; [by right|]. by intros [->|].
  - rewrite elem_of_app, list_elem_of_singleton. tauto.
Qed.

Lemma upsert_reward_unique (rs : list Reward) (r : Reward) :
  NoDup (rewardId <$> rs) → NoDup (rewardId <$> upsert_reward rs r).
Proof.
  intros Hnd. unfold upsert_reward, findOne.
  destruct (list_find _ rs) as [[i x]|] eqn:E.
  - apply list_find_Some in E as (Hi & Hid & _).
    rewrite list_fmap_insert, list_insert_id; [done|].
    by rewrite list_lookup_fmap, Hi, <- Hid.
  - rewrite fmap_app. apply NoDup_app. split_and!; [done| |apply NoDup_singleton].
    intros id Hid ->%list_elem_of_singleton.
    apply list_elem_of_fmap in Hid as (x & Hx & Hin).
    rewrite list_find_None, Forall_forall in E. by apply (E x).
Qed.

(** A save of a document that keeps the credited joiners and their count. *)
Lemma save_consistent (st : State) (i : nat) (u u' : User) :
  users st !! i = Some u →
  invitedUsers u' = invitedUsers u → invitesCount u' = invitesCount u →
  consistent st → consistent (save st i u').
Proof.
  intros Hi Hinv Hcnt [Hc Hl Hr Hu].
  assert (u ∈ users st) as Hin by by eapply list_elem_of_lookup_2.
  split; simpl; [|done| |done].
  - apply Forall_insert; [done|]. unfold credited. rewrite Hinv, Hcnt.
    rewrite Forall_forall in Hc. by apply Hc.
  - intros x j [->|Hx]%elem_of_insert_inv Hj.
    + rewrite Hinv in Hj. by eapply Hr.
    + by eapply Hr.
Qed.

Lemma write_consistent (st st' : State) :
  write st st' → consistent st → consistent st'.
Proof.
  destruct 1 as [st uid name|st i u name Hi|st i u link Hi|st i u ids Hi
                |st i u f Hi Hfresh|st p|st r]; intros Hst.
  - destruct Hst as [Hc Hl Hr Hu]. split; simpl; [|done| |done].
    + apply Forall_app. split; [done|]. by apply Forall_singleton.
    + intros x j [Hx| ->%list_elem_of_singleton]%elem_of_app Hj.
      * by eapply Hr.
      * by apply elem_of_nil in Hj.
  - by eapply save_consistent.
  - by eapply save_consistent.
  - by eapply save_consistent.
  - destruct Hst as [Hc Hl Hr Hu].
    assert (u ∈ users st) as Hin by by eapply list_elem_of_lookup_2.
    assert (ledger (save (with_referrals st (referrals st ++ [f])) i
                      (credit u (joinedUserId f)))
            = ledger st ++ [joinedUserId f]) as Hledger.
    { unfold ledger. simpl. by rewrite fmap_app. }
    split; [| | |done].
    + simpl. apply Forall_insert; [done|apply credit_credited].
    + rewrite Hledger. apply NoDup_app.
      split_and!; [done| |apply NoDup_singleton].
      by intros x Hx ->%list_elem_of_singleton.
    + rewrite Hledger. simpl.
      intros x j [->|Hx]%elem_of_insert_inv Hj; apply elem_of_app.
      * apply credit_invited in Hj as [->|Hj].
        -- right. by apply list_elem_of_singleton.
        -- left. by eapply Hr.
      * left. by eapply Hr.
  - by destruct Hst.
  - destruct Hst as [Hc Hl Hr Hu]. split; try done.
    by apply upsert_reward_unique.
Qed.

Lemma writes_consistent (st st' : State) :
  rtc write st st' → consistent st → consistent st'.
Proof. induction 1; eauto using write_consistent. Qed.

Lemma initial_consistent : consistent initial.
Proof.
  split; simpl; try by constructor.
  intros u j Hu. by apply elem_of_nil in Hu.
Qed.

Lemma run_consistent (cfg : Config) (us : list update) :
  consistent (run cfg us).
Proof.
  eapply writes_consistent; [apply run_from_writes|apply initial_consistent].
Qed.

(** A write keeps every stored profile, with its identity, and only ever
    appends to its claimed tier ids. *)
Lemma write_keeps_claimed (st st' : State) (j : nat) (u : User) :
  write st st' → users st !! j = Some u →
  ∃ u', users st' !! j = Some u'
        ∧ userId u' = userId u
        ∧ rewardsClaimed u `prefix_of` rewardsClaimed u'.
Proof.
  assert (∀ st i u0 u', users st !! i = Some u0 → users st !! j = Some u →
            userId u' = userId u0 →
            rewardsClaimed u0 `prefix_of` rewardsClaimed u' →
            ∃ u'', users (save st i u') !! j = Some u''
                   ∧ userId u'' = userId u
                   ∧ rewardsClaimed u `prefix_of` rewardsClaimed u'') as Hsave.
  { intros s i u0 u' Hi Hj Hid Hpre. simpl.
    destruct (decide (i = j)) as [->|Hne].
    - exists u'. rewrite list_lookup_insert_eq by by eapply lookup_lt_Some.
      by simplify_eq.
    - exists u. by rewrite list_lookup_insert_ne. }
  destruct 1 as [st uid name|st i u0 name Hi|st i u0 link Hi|st i u0 ids Hi
                |st i u0 f Hi Hfresh|st p|st r]; intros Hj.
  - exists u. simpl. by rewrite lookup_app_l by by eapply lookup_lt_Some.
  - by eapply Hsave.
  - by eapply Hsave.
  - eapply Hsave; [done..|]. by apply prefix_app_r.
  - by eapply (Hsave (with_referrals st _)).
  - by exists u.
  - by exists u.
Qed.

Lemma writes_keep_claimed (st st' : State) (j : nat) (u : User) :
  rtc write st st' → users st !! j = Some u →
  ∃ u', users st' !! j = Some u'
        ∧ userId u' = userId u
        ∧ rewardsClaimed u `prefix_of` rewardsClaimed u'.
Proof.
  intros H. revert u. induction H as [st|st st1 st' Hw _ IH]; intros u Hj.
  - by exists u.
  - destruct (write_keeps_claimed _ _ _ _ Hw Hj) as (u1 & Hj1 & Hid1 & Hp1).
    destruct (IH _ Hj1) as (u' & Hj' & Hid' & Hp').
    exists u'. split_and!; [done|congruence|by etrans].
Qed.

(** Referrals are only ever appended. *)
Lemma write_keeps_referrals (st st' : State) :
  write st st' → referrals st `prefix_of` referrals st'.
Proof.
  destruct 1; simpl; try done. by apply prefix_app_r.
Qed.

Lemma writes_keep_referrals (st st' : State) :
  rtc write st st' → referrals st `prefix_of` referrals st'.
Proof.
  induction 1 as [st|st st1 st' Hw _ IH]; [done|].
  etrans; [by apply write_keeps_referrals|done].
Qed.

Lemma run_from_app (cfg : Config) (st : State) (us us' : list update) :
  run_from cfg st (us ++ us') = run_from cfg (run_from cfg st us) us'.
Proof. unfold run_from. apply fold_left_app. Qed.

Lemma run_unique_rewardIds (cfg : Config) (us : list update) :
  unique_rewardIds (run cfg us).
Proof. apply run_consistent. Qed.

Lemma write_credited (st st' : State) :
  write st st' → Forall credited (users st) → Forall credited (users st').
Proof.
  assert (∀ st i u u', users st !! i = Some u →
            invitedUsers u' = invitedUsers u → invitesCount u' = invitesCount u →
            Forall credited (users st) → Forall credited (users (save st i u')))
    as Hsave.
  { intros s i u u' Hi Hinv Hcnt Hc. simpl. apply Forall_insert; [done|].
    unfold credited. rewrite Hinv, Hcnt.
    rewrite Forall_forall in Hc. apply Hc. by eapply list_elem_of_lookup_2. }
  destruct 1 as [st uid name|st i u name Hi|st i u link Hi|st i u ids Hi
                |st i u f Hi Hfresh|st p|st r]; intros Hc; simpl; try done.
  - apply Forall_app. split; [done|]. by apply Forall_singleton.
  - by eapply Hsave.
  - by eapply Hsave.
  - by eapply Hsave.
  - apply Forall_insert; [done|apply credit_credited].
Qed.

Lemma writes_credited (st st' : State) :
  rtc write st st' → Forall credited (users st) → Forall credited (users st').
Proof. induction 1; eauto using write_credited. Qed.

(** C5: a profile is created with count 0 and no credited joiner, and
    whatever updates the bot handles, in every profile the credit count
    [invitesCount] stays equal to the size of the credited-joiner list
    [invitedUsers]. *)
Theorem invitesCount_is_size_of_invitedUsers (cfg : Config) (st : State)
    (us : list update) :
  Forall credited (users st) →
  Forall credited (users (run_from cfg st us))
  ∧ ∀ uid name, credited (new_user uid name).
Proof.
  intros H. split; [|done].
  eapply writes_credited; [apply run_from_writes|done].
Qed.

Lemma invitesCount_is_size_of_invitedUsers_witness :
  Forall credited
    (users (run Demo.cfg
              (Demo.setup
               ++ [ChatMemberUpd (Demo.join Demo.channel 21 (Some Demo.ann_link))
                     true every_tier]))).
Proof.
  apply (invitesCount_is_size_of_invitedUsers Demo.cfg initial).
  constructor.
Defined.

(** C6: no update ever removes a tier id from a profile's claimed list
    [rewardsClaimed]: after any sequence of updates the profile is still
    stored, and its claimed list extends the one it had. *)
Theorem rewardsClaimed_only_grows (cfg : Config) (st : State)
    (us : list update) (i : nat) (u : User) :
  users st !! i = Some u →
  ∃ u', users (run_from cfg st us) !! i = Some u'
        ∧ userId u' = userId u
        ∧ rewardsClaimed u `prefix_of` rewardsClaimed u'
        ∧ ∀ id, id ∈ rewardsClaimed u → id ∈ rewardsClaimed u'.
Proof.
  intros Hi.
  destruct (writes_keep_claimed st (run_from cfg st us) i u
              (run_from_writes cfg us st) Hi) as (u' & Hi' & Hid & Hpre).
  exists u'. split_and!; try done.
  intros id Hin. destruct Hpre as [k ->]. apply elem_of_app. by left.
Qed.

Lemma rewardsClaimed_only_grows_witness :
  ∃ u', users (run_from Demo.cfg (catalog_state [tier "1" 5] ["0"])
                 [ChatMemberUpd (Demo.join Demo.channel 21 (Some "https://t.me/+ann"))
                    true every_tier]) !! 0%nat = Some u'
        ∧ userId u' = 7
        ∧ ["0"] `prefix_of` rewardsClaimed u'
        ∧ ∀ id, id ∈ ["0"] → id ∈ rewardsClaimed u'.
Proof.
  apply (rewardsClaimed_only_grows Demo.cfg (catalog_state [tier "1" 5] ["0"])
           _ 0%nat (inviter12 ["0"])).
  reflexivity.
Defined.

(** C8: an admin-only update (stats, user lookup, broadcast, rewards list,
    reward registration, reward upload) from anyone but the configured
    admin leaves the whole state, pending uploads included, as it was, and
    nothing is sent or written in answer. *)
Theorem admin_only_ignored_for_others (cfg : Config) (st : State)
    (u : update) (from : option From) :
  admin_only u = Some from → isAdmin cfg from = false →
  handle cfg st u = (st, []).
Proof.
  intros Hu Hfrom.
  destruct u; simpl in Hu; simplify_eq; simpl.
  - unfold on_stats. by rewrite Hfrom.
  - unfold on_user. by rewrite Hfrom.
  - unfold on_broadcast. by rewrite Hfrom.
  - unfold on_rewardslist. by rewrite Hfrom.
  - unfold on_reward. by rewrite Hfrom.
  - unfold on_document. by rewrite Hfrom.
Qed.

Lemma admin_only_ignored_for_others_witness :
  handle Demo.cfg (run Demo.cfg Demo.setup) (RewardCmd Demo.ann "/reward 9 1")
  = (run Demo.cfg Demo.setup, []).
Proof.
  apply (admin_only_ignored_for_others Demo.cfg _ _ Demo.ann); reflexivity.
Defined.

(** ** Attribution of a join *)

Lemma claim_all_nil (u : User) : claim_all u [] = u.
Proof. unfold claim_all. rewrite app_nil_r. by destruct u. Qed.

Lemma save_same (st : State) (i : nat) (u : User) :
  users st !! i = Some u → save st i u = st.
Proof.
  intros H. unfold save, with_users. rewrite list_insert_id by done.
  by destruct st.
Qed.

Lemma save_save (st : State) (i : nat) (u u' : User) :
  save (save st i u) i u' = save st i u'.
Proof. unfold save, with_users. simpl. by rewrite list_insert_insert_eq. Qed.

Lemma sendDueRewards_state (delivered : Reward → bool) (st : State) (i : nat)
    (u : User) :
  users st !! i = Some u →
  (sendDueRewards delivered st i u).1.1
  = save st i (claim_all u (delivered_ids delivered st u)).
Proof.
  intros Hi. rewrite sendDueRewards_spec. cbv zeta.
  unfold delivered_ids.
  destruct (toSend st u); [|done]. simpl.
  by rewrite claim_all_nil, save_same.
Qed.

Lemma on_chat_member_known (cfg : Config) (st : State)
    (upd : option ChatMemberUpdated) (notified : bool)
    (delivered : Reward → bool) (i : nat) (inviter : User) (j : Z) :
  tracked_join cfg st upd = Some (i, inviter, j) → j ∈ ledger st →
  on_chat_member cfg st upd notified delivered = (st, []).
Proof.
  intros Ht Hj. unfold on_chat_member. rewrite Ht.
  unfold create_referral. simpl. by rewrite decide_True.
Qed.

Lemma on_chat_member_fresh (cfg : Config) (st : State)
    (upd : option ChatMemberUpdated) (notified : bool)
    (delivered : Reward → bool) (i : nat) (inviter : User) (j : Z) :
  tracked_join cfg st upd = Some (i, inviter, j) → j ∉ ledger st →
  on_chat_member cfg st upd notified delivered
  = let st1 := committed cfg st i inviter j in
    let es := [ReferralCreated j (userId inviter); UserSaved (userId inviter)] in
    let notice :=
      SendMessage (userId inviter)
        (NewMemberJoined (invitesCount (credit inviter j))) in
    if notified then
      let sent := sendDueRewards delivered st1 i (credit inviter j) in
      (sent.1.1, es ++ notice true :: sent.2)
    else
      (st1, es ++ [notice false;
                   ConsoleError "Failed to DM inviter or send reward:"]).
Proof.
  intros Ht Hj. unfold on_chat_member. rewrite Ht.
  unfold create_referral. simpl. rewrite decide_False by done.
  destruct notified; [|done].
  fold (referral_of cfg inviter j). fold (committed cfg st i inviter j).
  by destruct (sendDueRewards _ _ _ _) as [[??]?].
Qed.

(** The state after a fresh join is handled: the referral is appended and
    the inviter's document holds the credit and the tiers delivered. *)
Lemma on_chat_member_fresh_state (cfg : Config) (st : State)
    (upd : option ChatMemberUpdated) (notified : bool)
    (delivered : Reward → bool) (i : nat) (inviter : User) (j : Z) :
  tracked_join cfg st upd = Some (i, inviter, j) → j ∉ ledger st →
  ∃ ids,
    (on_chat_member cfg st upd notified delivered).1
    = save (with_referrals st (referrals st ++ [referral_of cfg inviter j])) i
        (claim_all (credit inviter j) ids)
    ∧ (notified = false → ids = []).
Proof.
  intros Ht Hj. rewrite (on_chat_member_fresh _ _ _ _ _ _ _ _ Ht Hj).
  cbv zeta. apply tracked_join_Some in Ht as (Hi & _).
  destruct notified.
  - eexists. split; [|intros H; discriminate H]. cbn [fst].
    rewrite sendDueRewards_state by by eapply lookup_save_eq.
    unfold committed. by rewrite save_save.
  - exists []. by rewrite claim_all_nil.
Qed.

Lemma tracked_join_joined (cfg : Config) (st st' : State)
    (upd : option ChatMemberUpdated) (i i' : nat) (u u' : User) (j j' : Z) :
  tracked_join cfg st upd = Some (i, u, j) →
  tracked_join cfg st' upd = Some (i', u', j') → j' = j.
Proof.
  intros (_ & _ & ? & ? & ? & _ & ? & ? & _)%tracked_join_Some
         (_ & _ & ? & ? & ? & _ & ? & ? & _)%tracked_join_Some.
  congruence.
Qed.

(** C1: in every state the bot reaches no joined user has two referrals,
    and referrals are never removed or replaced afterwards.
    When the insert of the handler finds a referral of the joined user,
    whoever its inviter, the update changes nothing at all.  So when an
    update that attributes a join is delivered twice, the first delivery
    appends the referral and raises the inviter's count by one, and the
    second changes nothing. *)
Theorem one_referral_per_joined_user (cfg : Config) (us : list update) :
  let st := run cfg us in
  NoDup (ledger st)
  ∧ (∀ us', referrals st `prefix_of` referrals (run cfg (us ++ us')))
  ∧ ∀ upd i inviter j,
      tracked_join cfg st upd = Some (i, inviter, j) →
      (j ∈ ledger st →
       ∀ notified delivered,
         handle cfg st (ChatMemberUpd upd notified delivered) = (st, []))
      ∧ (j ∉ ledger st →
         ∀ notified delivered notified' delivered',
           let st1 := (handle cfg st (ChatMemberUpd upd notified delivered)).1 in
           let st2 :=
             (handle cfg st1 (ChatMemberUpd upd notified' delivered')).1 in
           ledger st1 = ledger st ++ [j]
           ∧ NoDup (ledger st1)
           ∧ (∃ inviter1,
                 users st1 !! i = Some inviter1
                 ∧ userId inviter1 = userId inviter
                 ∧ invitesCount inviter1 = S (invitesCount inviter))
           ∧ handle cfg st1 (ChatMemberUpd upd notified' delivered') = (st1, [])
           ∧ st2 = st1).
Proof.
  intros st.
  pose proof (run_consistent cfg us) as [Hc Hl Hr Hu]. fold st in Hc, Hl, Hr, Hu.
  split; [done|]. split.
  { intros us'. unfold st, run. rewrite run_from_app.
    apply writes_keep_referrals, run_from_writes. }
  intros upd i inviter j Ht. split.
  - intros Hj notified delivered. simpl. by eapply on_chat_member_known.
  - intros Hj notified delivered notified' delivered' st1 st2.
    destruct (on_chat_member_fresh_state cfg st upd notified delivered
                i inviter j Ht Hj) as (ids & Hst1 & _).
    change (handle cfg st (ChatMemberUpd upd notified delivered)).1
      with (on_chat_member cfg st upd notified delivered).1 in st1.
    pose proof (tracked_join_Some _ _ _ _ _ _ Ht) as (Hi & _).
    assert (ledger st1 = ledger st ++ [j]) as Hledger.
    { subst st1. rewrite Hst1. unfold ledger. simpl. by rewrite fmap_app. }
    assert (handle cfg st1 (ChatMemberUpd upd notified' delivered') = (st1, []))
      as Hsecond.
    { simpl. unfold on_chat_member.
      destruct (tracked_join cfg st1 upd) as [[[i' u'] j']|] eqn:Ht'; [|done].
      assert (j' = j) as -> by by eapply tracked_join_joined.
      unfold create_referral. simpl. fold (ledger st1).
      rewrite decide_True; [done|].
      rewrite Hledger, elem_of_app, list_elem_of_singleton. by right. }
    split_and!; [done| | |done|].
    + rewrite Hledger. apply NoDup_app.
      split_and!; [done| |apply NoDup_singleton].
      by intros x Hx ->%list_elem_of_singleton.
    + exists (claim_all (credit inviter j) ids). subst st1. rewrite Hst1.
      split_and!; [by eapply lookup_save_eq|done|].
      assert (j ∉ invitedUsers inviter) as Hnew.
      { intros Hin. apply Hj. eapply Hr; [|done].
        by eapply list_elem_of_lookup_2. }
      rewrite Forall_forall in Hc.
      rewrite (Hc inviter) by by eapply list_elem_of_lookup_2.
      simpl. rewrite decide_False by done.
      rewrite length_app. simpl. lia.
    + subst st2. by rewrite Hsecond.
Qed.

Lemma one_referral_per_joined_user_witness :
  let st := run Demo.cfg Demo.setup in
  let upd := Demo.join Demo.channel 21 (Some Demo.ann_link) in
  let ann := set_inviteLink (new_user 7 (Some "ann")) Demo.ann_link in
  let st1 := (handle Demo.cfg st (ChatMemberUpd upd true every_tier)).1 in
  let st2 := (handle Demo.cfg st1 (ChatMemberUpd upd false every_tier)).1 in
  tracked_join Demo.cfg st upd = Some (0%nat, ann, 21)
  ∧ (21 ∉ ledger st)
  ∧ ledger st1 = [21]
  ∧ (∃ inviter1, users st1 !! 0%nat = Some inviter1
                 ∧ userId inviter1 = 7 ∧ invitesCount inviter1 = 1%nat)
  ∧ st2 = st1.
Proof.
  intros st upd ann st1 st2.
  assert (21 ∉ ledger st) as Hfresh by apply not_elem_of_nil.
  destruct (one_referral_per_joined_user Demo.cfg Demo.setup) as (_ & _ & H).
  destruct (H upd 0%nat ann 21 eq_refl) as [_ H'].
  destruct (H' Hfresh true every_tier false every_tier) as (H1 & _ & H2 & _ & H3).
  split_and!; [reflexivity|done|exact H1|exact H2|exact H3].
Defined.

(** When the message to the inviter is refused, the dispatcher is not
    run: the tier that is due is neither sent nor claimed. *)
Lemma dispatch_skipped_when_notification_fails :
  let st := run Demo.cfg one_invite_tier in
  let upd := Demo.join Demo.channel 21 (Some Demo.ann_link) in
  let ann := set_inviteLink (new_user 7 (Some "ann")) Demo.ann_link in
  let handled := on_chat_member Demo.cfg st upd false every_tier in
  let dispatched :=
    sendDueRewards every_tier (committed Demo.cfg st 0 ann 21) 0 (credit ann 21) in
  tracked_join Demo.cfg st upd = Some (0%nat, ann, 21)
  ∧ documents_sent dispatched.2 = ["1"]
  ∧ rewardsClaimed <$> users dispatched.1.1 = [["1"]]
  ∧ documents_sent handled.2 = []
  ∧ rewardsClaimed <$> users handled.1 = [[]]
  ∧ ¬ dispatch_follows_every_attribution.
Proof.
  intros st upd ann handled dispatched.
  split_and!; try reflexivity.
  intros H.
  specialize (H Demo.cfg st upd 0%nat ann 21 false every_tier eq_refl).
  assert (21 ∉ ledger st) as Hfresh by apply not_elem_of_nil.
  specialize (H Hfresh).
  apply (f_equal (λ s, rewardsClaimed <$> users s)) in H.
  vm_compute in H. discriminate H.
Qed.

(** C4, as the handler does it: when the referral is inserted, the joined
    user is added to the inviter's credited joiners unless already there,
    the count is set to the size of that list and the profile is saved;
    then the inviter is notified, and the dispatcher runs only if that
    message was accepted, otherwise the failure is logged.  Whatever fails,
    the referral and the saved credit stay. *)
Theorem attribution_is_kept (cfg : Config) (st : State)
    (upd : option ChatMemberUpdated) (notified : bool)
    (delivered : Reward → bool) (i : nat) (inviter : User) (j : Z) :
  tracked_join cfg st upd = Some (i, inviter, j) → j ∉ ledger st →
  let st1 := committed cfg st i inviter j in
  let credited_inviter := credit inviter j in
  let written :=
    [ReferralCreated j (userId inviter); UserSaved (userId inviter)] in
  let notice :=
    SendMessage (userId inviter)
      (NewMemberJoined (invitesCount credited_inviter)) in
  let handled := on_chat_member cfg st upd notified delivered in
  (j ∈ invitedUsers inviter → invitedUsers credited_inviter = invitedUsers inviter)
  ∧ (j ∉ invitedUsers inviter →
     invitedUsers credited_inviter = invitedUsers inviter ++ [j])
  ∧ invitesCount credited_inviter = length (invitedUsers credited_inviter)
  ∧ users st1 !! i = Some credited_inviter
  ∧ (if notified then
       let sent := sendDueRewards delivered st1 i credited_inviter in
       handled = (sent.1.1, written ++ notice true :: sent.2)
     else
       handled
       = (st1, written ++ [notice false;
                           ConsoleError "Failed to DM inviter or send reward:"]))
  ∧ referrals handled.1 = referrals st ++ [referral_of cfg inviter j]
  ∧ ∃ stored,
      users handled.1 !! i = Some stored
      ∧ invitedUsers stored = invitedUsers credited_inviter
      ∧ invitesCount stored = invitesCount credited_inviter
      ∧ j ∈ invitedUsers stored.
Proof.
  intros Ht Hj st1 credited_inviter written notice handled.
  pose proof (tracked_join_Some _ _ _ _ _ _ Ht) as (Hi & _).
  destruct (on_chat_member_fresh_state cfg st upd notified delivered
              i inviter j Ht Hj) as (ids & Hst & _).
  fold handled in Hst.
  split_and!.
  - intros Hin. unfold credited_inviter, credit. simpl. by rewrite decide_True.
  - intros Hin. unfold credited_inviter, credit. simpl. by rewrite decide_False.
  - done.
  - by eapply lookup_save_eq.
  - unfold handled. rewrite (on_chat_member_fresh _ _ _ _ _ _ _ _ Ht Hj).
    by destruct notified.
  - by rewrite Hst.
  - exists (claim_all credited_inviter ids). rewrite Hst.
    split_and!; [by eapply lookup_save_eq|done|done|].
    simpl. apply credit_invited. by left.
Qed.

Lemma attribution_is_kept_witness :
  let st := run Demo.cfg one_invite_tier in
  let upd := Demo.join Demo.channel 21 (Some Demo.ann_link) in
  let handled := on_chat_member Demo.cfg st upd false every_tier in
  ledger handled.1 = [21]
  ∧ ∃ stored, users handled.1 !! 0%nat = Some stored
              ∧ invitedUsers stored = [21]
              ∧ invitesCount stored = 1%nat
              ∧ 21 ∈ invitedUsers stored.
Proof.
  intros st upd handled.
  assert (21 ∉ ledger st) as Hfresh by apply not_elem_of_nil.
  destruct (attribution_is_kept Demo.cfg st upd false every_tier 0%nat
              (set_inviteLink (new_user 7 (Some "ann")) Demo.ann_link) 21
              eq_refl Hfresh) as (_ & _ & _ & _ & _ & Hrefs & Hstored).
  split; [|exact Hstored].
  unfold ledger. fold handled in Hrefs. by rewrite Hrefs.
Defined.

(** ** Joins that are not tracked *)

Lemma untracked_join_changes_nothing (cfg : Config) (st : State)
    (upd : option ChatMemberUpdated) (notified : bool)
    (delivered : Reward → bool) :
  tracked_join cfg st upd = None →
  handle cfg st (ChatMemberUpd upd notified delivered) = (st, []).
Proof. intros H. simpl. unfold on_chat_member. by rewrite H. Qed.

Lemma dropped_not_tracked (cfg : Config) (st : State) (upd : ChatMemberUpdated) :
  dropped cfg st upd → tracked_join cfg st (Some upd) = None.
Proof.
  intros H. unfold tracked_join.
  destruct (channel_accepted cfg upd) eqn:Hc; simpl; [|done].
  destruct (new_chat_member upd) as [joined|] eqn:Hj; [|done].
  destruct (bool_decide _ && _) eqn:Hs; [|done].
  apply andb_true_iff in Hs as [Hnew Hold].
  apply bool_decide_eq_true in Hnew.
  apply negb_true_iff, bool_decide_eq_false in Hold.
  destruct (invite_link upd) as [[|c l]|] eqn:Hl; [done| |done].
  destruct (findOne _ (users st)) as [[i inviter]|] eqn:E; [|done].
  destruct (decide _) as [|Hne]; [done|]. exfalso.
  destruct H as [H|[H|H]|H|link H1 H2|link i' inviter' joined' H1 H2 H3 H4].
  - congruence.
  - by rewrite Hj in H.
  - done.
  - by rewrite Hl in H.
  - rewrite Hl in H1. by simplify_eq.
  - rewrite Hl in H1. by simplify_eq.
Qed.

(** Configured with a numeric id, the handler goes on only for that chat. *)
Lemma channel_accepted_numeric (cfg : Config) (upd : ChatMemberUpdated)
    (n : number) (c : Chat) :
  CHANNEL_CHAT_ID cfg = Numeric n → chat upd = Some c →
  channel_accepted cfg upd = strict_eq (of_Z (chat_id c)) n.
Proof.
  intros Hn Hc. unfold channel_accepted. rewrite Hn, Hc.
  unfold strict_neq. by destruct (strict_eq (of_Z (chat_id c)) n).
Qed.

(** Configured with a public name, the handler goes on for a chat with a
    user name only when it is the configured one. *)
Lemma channel_accepted_named (cfg : Config) (upd : ChatMemberUpdated)
    (name : string) (c : Chat) (a : ascii) (uname : string) :
  CHANNEL_CHAT_ID cfg = Public name → chat upd = Some c →
  chat_username c = Some (String a uname) →
  channel_accepted cfg upd
  = bool_decide ("@" +:+ String a uname = CHANNEL_ID cfg).
Proof.
  intros Hn Hc Hu. unfold channel_accepted. rewrite Hn, Hc. simpl.
  rewrite Hu. simpl.
  assert (startsWith "@" name = true) as ->.
  { unfold CHANNEL_CHAT_ID, normalizeChatId in Hn.
    destruct (startsWith "@" (CHANNEL_ID cfg)) eqn:E; by simplify_eq. }
  unfold strict_neq. by rewrite negb_involutive.
Qed.

(** Configured with a public name, the handler goes on for every chat that
    has no user name. *)
Lemma channel_accepted_unnamed (cfg : Config) (upd : ChatMemberUpdated)
    (name : string) :
  CHANNEL_CHAT_ID cfg = Public name → truthy (chat upd ≫= chat_username) = false →
  channel_accepted cfg upd = true.
Proof.
  intros Hn Hu. unfold channel_accepted. rewrite Hn, Hu.
  destruct (chat upd) as [c|]; [|done].
  unfold strict_neq, strict_eq, of_Z. by rewrite Qeq_bool_refl.
Qed.

(** C7 holds for every update the guards drop: nothing is written and
    nothing is sent. *)
Lemma dropped_join_changes_nothing (cfg : Config) (st : State)
    (upd : ChatMemberUpdated) (notified : bool) (delivered : Reward → bool) :
  dropped cfg st upd →
  handle cfg st (ChatMemberUpd (Some upd) notified delivered) = (st, []).
Proof.
  intros H. by apply untracked_join_changes_nothing, dropped_not_tracked.
Qed.

(** C7 fails for the channel test: with the channel configured by its
    public name, a join in a chat that has no user name passes the test,
    and the referral is inserted and the inviter credited. *)
Theorem join_in_unnamed_chat_is_attributed :
  let st := run Demo.cfg Demo.setup in
  let upd := Demo.join unnamed_chat 21 (Some Demo.ann_link) in
  let handled := handle Demo.cfg st (ChatMemberUpd upd true every_tier) in
  CHANNEL_CHAT_ID Demo.cfg = Public "@wallswipe"
  ∧ referrals st = []
  ∧ (invitesCount <$> users st) = [0%nat]
  ∧ referrals handled.1
    = [{| joinedUserId := 21; inviterUserId := 7; chatId := None |}]
  ∧ (invitedUsers <$> users handled.1) = [[21]]
  ∧ (invitesCount <$> users handled.1) = [1%nat]
  ∧ handled.2
    = [ReferralCreated 21 7; UserSaved 7;
       SendMessage 7 (NewMemberJoined 1) true].
Proof. by vm_compute. Qed.

(** ** Registration of rewards *)






(** * Further properties of the handlers *)

(** ** The checked writes *)

Lemma edit_writes (cfg : Config) (st st' : State) :
  edit cfg st st' → rtc write st st'.
Proof.
  destruct 1 as [st uid name _|st i u name Hi|st i u link Hi _
                |st i u delivered Hi|st i u j Hi Hj _|st f id thr _
                |st f r _ _].
  - apply rtc_once. constructor.
  - apply rtc_once. by constructor.
  - apply rtc_once. by constructor.
  - apply rtc_once. by constructor.
  - apply rtc_once. by apply (write_referral st i u (referral_of cfg u j)).
  - apply rtc_once. constructor.
  - eapply rtc_l; [apply write_reward|].
    apply rtc_once. apply (write_pending (with_rewards st _)).
Qed.

Lemma edits_writes (cfg : Config) (st st' : State) :
  rtc (edit cfg) st st' → rtc write st st'.
Proof.
  induction 1 as [st|st st1 st' He _ IH]; [done|].
  etrans; [by eapply edit_writes|done].
Qed.

Lemma ensureUser_edits (cfg : Config) (st : State) (from : From) :
  let '(st', i, user, _) := ensureUser st from in
  rtc (edit cfg) st st' ∧ users st' !! i = Some user.
Proof.
  unfold ensureUser, findOne.
  destruct (list_find _ (users st)) as [[i u]|] eqn:E.
  - apply list_find_Some in E as (Hi & _).
    destruct (decide _).
    + done.
    + split; [|by eapply lookup_save_eq].
      apply rtc_once. by constructor.
  - split.
    + apply rtc_once. constructor.
      rewrite list_find_None, Forall_forall in E.
      intros (u & Hu & Hin)%list_elem_of_fmap. by apply (E u).
    + simpl. by rewrite lookup_app_r, Nat.sub_diag.
Qed.

Lemma getOrCreateInviteLinkForUser_edits (cfg : Config)
    (answer : option string) (st : State) (i : nat) (user : User) :
  users st !! i = Some user →
  rtc (edit cfg) st (getOrCreateInviteLinkForUser answer st i user).1.1.
Proof.
  intros Hi. unfold getOrCreateInviteLinkForUser.
  destruct (truthy _) eqn:E; [done|]. destruct answer; [|done].
  apply rtc_once. by constructor.
Qed.

Lemma on_chat_member_edits (cfg : Config) (st : State)
    (upd : option ChatMemberUpdated) (notified : bool)
    (delivered : Reward → bool) :
  rtc (edit cfg) st (on_chat_member cfg st upd notified delivered).1.
Proof.
  destruct (tracked_join cfg st upd) as [[[i inviter] j]|] eqn:Ht.
  - destruct (decide (j ∈ ledger st)) as [Hj|Hj].
    + by rewrite (on_chat_member_known _ _ _ _ _ _ _ _ Ht Hj).
    + rewrite (on_chat_member_fresh _ _ _ _ _ _ _ _ Ht Hj). cbv zeta.
      apply tracked_join_Some in Ht as (Hi & Hne & _).
      assert (edit cfg st (committed cfg st i inviter j)) as He
        by by constructor.
      destruct notified; [|by apply rtc_once].
      cbn [fst]. eapply rtc_l; [done|].
      rewrite sendDueRewards_state by by eapply lookup_save_eq.
      apply rtc_once. constructor. by eapply lookup_save_eq.
  - unfold on_chat_member. by rewrite Ht.
Qed.

(** Every handler changes the state by a sequence of checked writes. *)
Lemma handle_edits (cfg : Config) (st : State) (u : update) :
  rtc (edit cfg) st (handle cfg st u).1.
Proof.
  destruct u as [from answer|from answer|from|from| | |from|from text
                |from text accepted|from|from text|from doc
                |upd notified delivered]; simpl.
  - unfold on_start. destruct from as [f|]; [|done].
    pose proof (ensureUser_edits cfg st f) as H.
    destruct (ensureUser st f) as [[[st1 i] user] es]. destruct H as [H Hi].
    pose proof (getOrCreateInviteLinkForUser_edits cfg answer st1 i user Hi)
      as H'.
    destruct (getOrCreateInviteLinkForUser _ _ _ _) as [[st2 [l|]] es'];
      simpl in *; by etrans.
  - unfold on_link. destruct from as [f|]; [|done].
    pose proof (ensureUser_edits cfg st f) as H.
    destruct (ensureUser st f) as [[[st1 i] user] es]. destruct H as [H Hi].
    pose proof (getOrCreateInviteLinkForUser_edits cfg answer st1 i user Hi)
      as H'.
    destruct (getOrCreateInviteLinkForUser _ _ _ _) as [[st2 [l|]] es'];
      simpl in *; by etrans.
  - unfold on_myinvites. destruct from as [f|]; [|done].
    pose proof (ensureUser_edits cfg st f) as H.
    destruct (ensureUser st f) as [[[st1 i] user] es]. destruct H as [H Hi].
    by destruct (progressText _ _).
  - unfold on_rewards. destruct from as [f|]; [|done].
    pose proof (ensureUser_edits cfg st f) as H.
    destruct (ensureUser st f) as [[[st1 i] user] es]. destruct H as [H Hi].
    by destruct (rewardsClaimed user).
  - unfold on_top. by destruct (limit _ _).
  - done.
  - unfold on_stats. by destruct (negb _).
  - unfold on_user. destruct (negb _); [done|].
    destruct (decide _); [done|].
    by repeat case_match.
  - unfold on_broadcast. destruct (negb _); [done|].
    destruct (decide _); [done|]. by destruct (broadcast_each _ _ _) as [[??]?].
  - unfold on_rewardslist. destruct (negb _); [done|].
    by destruct (rewards_by_threshold st).
  - unfold on_reward. destruct (isAdmin cfg from) eqn:Ha; [|done]. simpl.
    destruct from as [f|]; [|done].
    destruct (trim_split text !! 1%nat); [|done].
    apply rtc_once. by constructor.
  - unfold on_document. destruct (isAdmin cfg from) eqn:Ha; [|done]. simpl.
    destruct from as [f|]; [|done].
    destruct (pendingRewardUploads st !! from_id f) as [[id thr]|]; [|done].
    destruct (negb _); [done|]. destruct (isNaN thr) eqn:Hn; [done|]. simpl.
    apply rtc_once.
    by apply (edit_reward cfg st f
                {| rewardId := id; fileId := file_id doc; threshold := thr |}).
  - apply on_chat_member_edits.
Qed.

Lemma run_from_edits (cfg : Config) (us : list update) (st : State) :
  rtc (edit cfg) st (run_from cfg st us).
Proof.
  revert st. induction us as [|u us IH]; intros st; [done|].
  simpl. etrans; [apply handle_edits|apply IH].
Qed.

(** ** What the checked writes keep *)

Lemma sum_list_insert (l : list nat) (i : nat) (x y : nat) :
  l !! i = Some x → (sum_list (<[i := y]> l) + x = sum_list l + y)%nat.
Proof.
  revert i. induction l as [|a l IH]; intros [|i] Hi; simplify_eq/=.
  - lia.
  - specialize (IH i Hi). lia.
Qed.

Lemma NoDup_fmap_filter {A B} (f : A → B) (p : A → bool) (l : list A) :
  NoDup (f <$> l) → NoDup (f <$> List.filter p l).
Proof.
  induction l as [|a l IH]; simpl; [done|].
  rewrite NoDup_cons. intros [Ha Hl].
  destruct (p a); [|by apply IH]. simpl. apply NoDup_cons. split; [|by apply IH].
  intros (b & Hb & Hin)%list_elem_of_fmap. apply Ha.
  apply list_elem_of_fmap. exists b. split; [done|].
  by apply list_elem_of_In, filter_In in Hin as [?%list_elem_of_In _].
Qed.

(** The ids a pass delivers are distinct, not yet claimed, and ids of
    rewards of the catalog. *)
Lemma delivered_ids_sound (delivered : Reward → bool) (st : State) (u : User) :
  unique_rewardIds st →
  NoDup (delivered_ids delivered st u)
  ∧ ∀ id, id ∈ delivered_ids delivered st u →
          (id ∉ rewardsClaimed u) ∧ id ∈ rewardId <$> rewards st.
Proof.
  intros Hu. split.
  - unfold delivered_ids, toSend, rewards_by_threshold.
    do 2 apply NoDup_fmap_filter.
    unfold unique_rewardIds in Hu. by rewrite merge_sort_Permutation.
  - intros id (r & Hr & _ & <-)%delivered_ids_elem_of.
    apply elem_of_toSend in Hr as (Hin & _ & Hnew). split; [done|].
    apply list_elem_of_fmap. by exists r.
Qed.

Lemma claim_all_registered (delivered : Reward → bool) (st : State) (u : User) :
  unique_rewardIds st → claims_registered st u →
  claims_registered st (claim_all u (delivered_ids delivered st u)).
Proof.
  intros Hu [Hnd Hreg].
  destruct (delivered_ids_sound delivered st u Hu) as [Hnd' Hnew].
  split; simpl.
  - apply NoDup_app. split_and!; [done| |done].
    intros id Hid Hid'. by apply (Hnew id).
  - intros id [Hid|Hid]%elem_of_app; [by apply Hreg|by apply Hnew].
Qed.

Lemma upsert_reward_ids (rs : list Reward) (r : Reward) (id : string) :
  id ∈ rewardId <$> rs → id ∈ rewardId <$> upsert_reward rs r.
Proof.
  unfold upsert_reward, findOne.
  destruct (list_find _ rs) as [[i x]|] eqn:E.
  - apply list_find_Some in E as (Hi & Hid & _).
    rewrite list_fmap_insert, list_insert_id; [done|].
    by rewrite list_lookup_fmap, Hi, <- Hid.
  - rewrite fmap_app, elem_of_app. by left.
Qed.

(** A save that keeps the identity and the credits of the profile. *)
Lemma save_sound (cfg : Config) (st : State) (i : nat) (u u' : User) :
  users st !! i = Some u →
  userId u' = userId u → invitedUsers u' = invitedUsers u →
  invitesCount u' = invitesCount u → claims_registered st u' →
  sound cfg st → sound cfg (save st i u').
Proof.
  intros Hi Hid Hinv Hcnt Hclaims [Huniq Hcred Honce Href Htot Hcl Hpend].
  assert (∀ k x, <[i := u']> (users st) !! k = Some x →
            ∃ y, users st !! k = Some y
                 ∧ invitedUsers x = invitedUsers y ∧ userId x = userId y)
    as Hold.
  { intros k x [(-> & <- & _)|[_ Hk]]%list_lookup_insert_Some; eauto. }
  split; simpl.
  - rewrite list_fmap_insert, list_insert_id; [done|].
    by rewrite list_lookup_fmap, Hi, Hid.
  - apply Forall_insert; [done|]. unfold credits_distinct.
    rewrite Hinv, Hid. rewrite Forall_forall in Hcred.
    apply Hcred. by eapply list_elem_of_lookup_2.
  - intros k k' x x' j Hk Hk' Hj Hj'.
    apply Hold in Hk as (y & Hy & Ey & _), Hk' as (y' & Hy' & Ey' & _).
    rewrite Ey in Hj. rewrite Ey' in Hj'. by eapply Honce.
  - intros f Hf. destruct (Href f Hf) as (Hne & x & Hx & Hxid & Hxj).
    split; [done|].
    apply list_elem_of_lookup in Hx as [k Hk].
    destruct (decide (k = i)) as [->|Hki].
    + simplify_eq. exists u'. split_and!; [|congruence|congruence].
      apply list_elem_of_insert. by eapply lookup_lt_Some.
    + exists x. split_and!; [|done|done].
      apply list_elem_of_lookup. exists k. by rewrite list_lookup_insert_ne.
  - rewrite list_fmap_insert, list_insert_id; [done|].
    by rewrite list_lookup_fmap, Hi, Hcnt.
  - by apply Forall_insert.
  - done.
Qed.

Lemma edit_sound (cfg : Config) (st st' : State) :
  edit cfg st st' → consistent st → sound cfg st → sound cfg st'.
Proof.
  intros He [Hcount Hledger Hrec Hru] Hs.
  assert (∀ i u, users st !! i = Some u → claims_registered st u) as Hcl0.
  { intros i u Hi. destruct Hs as [_ _ _ _ _ Hcl _].
    rewrite Forall_forall in Hcl. apply Hcl. by eapply list_elem_of_lookup_2. }
  destruct He as [st uid name Hnew|st i u name Hi|st i u link Hi _
                 |st i u delivered Hi|st i u j Hi Hj Hne|st f id thr Ha
                 |st f r Ha Hn].
  - destruct Hs as [Huniq Hcred Honce Href Htot Hcl Hpend].
    split; simpl.
    + rewrite fmap_app. apply NoDup_app. split_and!; [done| |apply NoDup_singleton].
      by intros x Hx ->%list_elem_of_singleton.
    + apply Forall_app. split; [done|]. apply Forall_singleton.
      split; simpl; [constructor|apply not_elem_of_nil].
    + intros k k' x x' j Hk Hk' Hj Hj'.
      apply lookup_app_Some in Hk as [Hk|[_ Hk]];
        [|apply list_lookup_singleton_Some in Hk as [_ <-];
          by apply elem_of_nil in Hj].
      apply lookup_app_Some in Hk' as [Hk'|[_ Hk']];
        [|apply list_lookup_singleton_Some in Hk' as [_ <-];
          by apply elem_of_nil in Hj'].
      by eapply Honce.
    + intros f Hf. destruct (Href f Hf) as (? & x & Hx & ? & ?).
      split; [done|]. exists x. split_and!; try done.
      apply elem_of_app. by left.
    + rewrite fmap_app, sum_list_with_app. simpl. lia.
    + apply Forall_app. split; [done|]. apply Forall_singleton.
      split; simpl; [constructor|]. intros id Hid. by apply elem_of_nil in Hid.
    + done.
  - apply (save_sound cfg st i u); try done. exact (Hcl0 i u Hi).
  - apply (save_sound cfg st i u); try done. exact (Hcl0 i u Hi).
  - apply (save_sound cfg st i u); try done.
    apply claim_all_registered; [done|by eapply Hcl0].
  - assert (u ∈ users st) as Hu by by eapply list_elem_of_lookup_2.
    assert (j ∉ invitedUsers u) as Hfresh by (intros Hin; apply Hj; eauto).
    assert (invitedUsers (credit u j) = invitedUsers u ++ [j]) as Hinv.
    { unfold credit. simpl. by rewrite decide_False. }
    assert (invitesCount (credit u j) = S (invitesCount u)) as Hcnt.
    { unfold credit at 1. simpl. rewrite decide_False by done.
      rewrite Forall_forall in Hcount. rewrite (Hcount u Hu).
      rewrite length_app. simpl. lia. }
    destruct Hs as [Huniq Hcred Honce Href Htot Hcl Hpend].
    assert (∀ k x, <[i := credit u j]> (users st) !! k = Some x →
              ∃ y, users st !! k = Some y ∧ userId x = userId y
                   ∧ rewardsClaimed x = rewardsClaimed y
                   ∧ ∀ j0, j0 ∈ invitedUsers x →
                           j0 ∈ invitedUsers y ∨ (j0 = j ∧ k = i)) as Hold.
    { intros k x [(-> & <- & _)|[_ Hk]]%list_lookup_insert_Some.
      - exists u. split_and!; try done. intros j0 Hj0.
        rewrite Hinv, elem_of_app, list_elem_of_singleton in Hj0.
        destruct Hj0 as [?| ->]; [by left|by right].
      - exists x. split_and!; try done. by left. }
    unfold committed. split; cbn -[credit].
    + rewrite list_fmap_insert, list_insert_id; [done|].
      by rewrite list_lookup_fmap, Hi.
    + apply Forall_insert; [done|]. rewrite Forall_forall in Hcred.
      destruct (Hcred u Hu) as [Hnd Hself]. split.
      * rewrite Hinv. apply NoDup_app. split_and!; [done| |apply NoDup_singleton].
        by intros x Hx ->%list_elem_of_singleton.
      * rewrite Hinv, elem_of_app, list_elem_of_singleton. simpl.
        intros [?|?]; [done|by apply Hne].
    + intros k k' x x' j0 Hk Hk' Hj0 Hj0'.
      apply Hold in Hk as (y & Hy & _ & _ & Hjy).
      apply Hold in Hk' as (y' & Hy' & _ & _ & Hjy').
      destruct (Hjy _ Hj0) as [Hin|[-> ->]], (Hjy' _ Hj0') as [Hin'|[E ->]].
      * by eapply Honce.
      * subst j0. exfalso. apply Hj.
        apply (Hrec y); [by eapply list_elem_of_lookup_2|done].
      * exfalso. apply Hj.
        apply (Hrec y'); [by eapply list_elem_of_lookup_2|done].
      * done.
    + intros f [Hf| ->%list_elem_of_singleton]%elem_of_app.
      * destruct (Href f Hf) as (? & x & Hx & Hxid & Hxj). split; [done|].
        apply list_elem_of_lookup in Hx as [k Hk].
        destruct (decide (k = i)) as [->|Hki].
        -- simplify_eq. exists (credit u j). split_and!; [|done|].
           ++ apply list_elem_of_insert. by eapply lookup_lt_Some.
           ++ rewrite Hinv, elem_of_app. by left.
        -- exists x. split_and!; [|done|done].
           apply list_elem_of_lookup. exists k.
           by rewrite list_lookup_insert_ne.
      * simpl. split; [done|]. exists (credit u j). split_and!; [|done|].
        -- apply list_elem_of_insert. by eapply lookup_lt_Some.
        -- rewrite Hinv, elem_of_app, list_elem_of_singleton. by right.
    + rewrite list_fmap_insert, length_app. simpl.
      pose proof (sum_list_insert (invitesCount <$> users st) i
                    (invitesCount u) (invitesCount (credit u j))) as Hsum.
      rewrite list_lookup_fmap, Hi in Hsum. specialize (Hsum eq_refl).
      change (sum_list (<[i := invitesCount (credit u j)]>
                          (invitesCount <$> users st))
              = (length (referrals st) + 1)%nat).
      rewrite Hcnt in Hsum |- *. lia.
    + apply Forall_insert; [exact Hcl|]. exact (Hcl0 i u Hi).
    + done.
  - destruct Hs as [Huniq Hcred Honce Href Htot Hcl Hpend].
    split; simpl; try done.
    intros k p [[<- _]|[_ Hk]]%lookup_insert_Some; [exact Ha|by eapply Hpend].
  - destruct Hs as [Huniq Hcred Honce Href Htot Hcl Hpend].
    split; simpl; try done.
    + eapply Forall_impl; [exact Hcl|]. intros x [Hnd Hreg]. split; [done|].
      intros id Hid. simpl. by apply upsert_reward_ids, Hreg.
    + intros k p [_ Hk]%lookup_delete_Some. by eapply Hpend.
Qed.

Lemma initial_sound (cfg : Config) : sound cfg initial.
Proof.
  split; simpl; try by constructor.
  - intros i i' u u' j Hi. by rewrite lookup_nil in Hi.
  - intros f Hf. by apply elem_of_nil in Hf.
  - intros k p Hk. by rewrite lookup_empty in Hk.
Qed.

Lemma edits_sound (cfg : Config) (st st' : State) :
  rtc (edit cfg) st st' → consistent st → sound cfg st → sound cfg st'.
Proof.
  induction 1 as [st|st st1 st' He _ IH]; [done|]. intros Hc Hs.
  apply IH.
  - eapply writes_consistent; [by eapply edit_writes|done].
  - by eapply edit_sound.
Qed.

Lemma run_sound (cfg : Config) (us : list update) : sound cfg (run cfg us).
Proof.
  eapply edits_sound;
    [apply run_from_edits|apply initial_consistent|apply initial_sound].
Qed.

(** A checked write keeps every stored profile, with its identity, its
    link once it has one, and its credited joiners, which are only
    appended to. *)
Lemma edit_keeps_profile (cfg : Config) (st st' : State) (k : nat) (u : User) :
  edit cfg st st' → users st !! k = Some u →
  ∃ u', users st' !! k = Some u'
        ∧ userId u' = userId u
        ∧ (truthy (inviteLink u) = true → inviteLink u' = inviteLink u)
        ∧ invitedUsers u `prefix_of` invitedUsers u'.
Proof.
  assert (∀ st i u0 u', users st !! i = Some u0 → users st !! k = Some u →
            userId u' = userId u0 →
            (truthy (inviteLink u0) = true → inviteLink u' = inviteLink u0) →
            invitedUsers u0 `prefix_of` invitedUsers u' →
            ∃ u'', users (save st i u') !! k = Some u''
                   ∧ userId u'' = userId u
                   ∧ (truthy (inviteLink u) = true →
                      inviteLink u'' = inviteLink u)
                   ∧ invitedUsers u `prefix_of` invitedUsers u'') as Hsave.
  { intros s i u0 u' Hi Hk Hid Hlink Hpre. simpl.
    destruct (decide (i = k)) as [->|Hne].
    - exists u'. rewrite list_lookup_insert_eq by by eapply lookup_lt_Some.
      by simplify_eq.
    - exists u. by rewrite list_lookup_insert_ne. }
  destruct 1 as [st uid name Hnew|st i u0 name Hi|st i u0 link Hi Hl
                |st i u0 delivered Hi|st i u0 j Hi Hj Hne|st f id thr Ha
                |st f r Ha Hn]; intros Hk.
  - exists u. simpl. by rewrite lookup_app_l by by eapply lookup_lt_Some.
  - by eapply Hsave.
  - eapply Hsave; [done..| |done]. intros Ht. congruence.
  - by eapply Hsave.
  - unfold committed. eapply (Hsave (with_referrals st _)); [done..|].
    unfold credit. simpl. destruct (decide _); [done|]. by apply prefix_app_r.
  - by exists u.
  - by exists u.
Qed.

Lemma edits_keep_profile (cfg : Config) (st st' : State) (k : nat) (u : User) :
  rtc (edit cfg) st st' → users st !! k = Some u →
  ∃ u', users st' !! k = Some u'
        ∧ userId u' = userId u
        ∧ (truthy (inviteLink u) = true → inviteLink u' = inviteLink u)
        ∧ invitedUsers u `prefix_of` invitedUsers u'.
Proof.
  intros H. revert u. induction H as [st|st st1 st' He _ IH]; intros u Hk.
  - by exists u.
  - destruct (edit_keeps_profile _ _ _ _ _ He Hk) as (u1 & Hk1 & Hid1 & Hl1 & Hp1).
    destruct (IH _ Hk1) as (u' & Hk' & Hid' & Hl' & Hp').
    exists u'. split_and!; [done|congruence| |by etrans].
    intros Ht. rewrite Hl' by by rewrite Hl1. by apply Hl1.
Qed.

(** ** Invitation links *)

(** X1: once [getOrCreateInviteLinkForUser] has returned a non-empty link
    for a stored profile, the profile holds that link, and a further call
    returns the same link without asking Telegram and without writing,
    whatever Telegram would answer. *)
Theorem getOrCreateInviteLinkForUser_idempotent (answer answer' : option string)
    (st st1 : State) (i : nat) (user : User) (link : string)
    (es : list effect) :
  users st !! i = Some user →
  getOrCreateInviteLinkForUser answer st i user = (st1, Some link, es) →
  truthy (Some link) = true →
  ∃ user1,
    users st1 !! i = Some user1
    ∧ inviteLink user1 = Some link
    ∧ getOrCreateInviteLinkForUser answer' st1 i user1 = (st1, Some link, []).
Proof.
  intros Hi Hcall Hlink. unfold getOrCreateInviteLinkForUser in Hcall.
  destruct (truthy (inviteLink user)) eqn:Ht.
  - simplify_eq. exists user. split_and!; [done|done|].
    unfold getOrCreateInviteLinkForUser. rewrite Ht. congruence.
  - destruct answer as [l|]; simplify_eq.
    exists (set_inviteLink user link).
    split_and!; [by eapply lookup_save_eq|done|].
    unfold getOrCreateInviteLinkForUser. simpl inviteLink. by rewrite Hlink.
Qed.

Lemma getOrCreateInviteLinkForUser_idempotent_witness :
  let st := run Demo.cfg [MyInvitesCmd Demo.ann] in
  let first := getOrCreateInviteLinkForUser (Some Demo.ann_link) st 0
                 (new_user 7 (Some "ann")) in
  ∃ user1,
    users first.1.1 !! 0%nat = Some user1
    ∧ inviteLink user1 = Some Demo.ann_link
    ∧ getOrCreateInviteLinkForUser None first.1.1 0 user1
      = (first.1.1, Some Demo.ann_link, []).
Proof.
  intros st first.
  apply (getOrCreateInviteLinkForUser_idempotent (Some Demo.ann_link) None st
           first.1.1 0%nat (new_user 7 (Some "ann")) Demo.ann_link first.2);
    reflexivity.
Defined.

(** X2: a profile that has a non-empty invitation link keeps that very link
    through every later update. *)
Theorem inviteLink_is_permanent (cfg : Config) (st : State) (us : list update)
    (i : nat) (u : User) :
  users st !! i = Some u → truthy (inviteLink u) = true →
  ∃ u', users (run_from cfg st us) !! i = Some u'
        ∧ userId u' = userId u ∧ inviteLink u' = inviteLink u.
Proof.
  intros Hi Ht.
  destruct (edits_keep_profile cfg st (run_from cfg st us) i u
              (run_from_edits cfg us st) Hi) as (u' & Hi' & Hid & Hl & _).
  exists u'. split_and!; [done|done|by apply Hl].
Qed.

Lemma inviteLink_is_permanent_witness :
  ∃ u', users (run_from Demo.cfg (run Demo.cfg Demo.setup)
                 [StartCmd Demo.ann (Some "https://t.me/+other");
                  LinkCmd Demo.ann None]) !! 0%nat = Some u'
        ∧ userId u' = 7 ∧ inviteLink u' = Some Demo.ann_link.
Proof.
  apply (inviteLink_is_permanent Demo.cfg (run Demo.cfg Demo.setup) _ 0%nat
           (set_inviteLink (new_user 7 (Some "ann")) Demo.ann_link));
    reflexivity.
Defined.



(** ** Profiles *)

Lemma findOne_insert_same {A} (P : A → Prop) `{∀ x, Decision (P x)}
    (l : list A) (i : nat) (x y : A) :
  findOne P l = Some (i, x) → P y → findOne P (<[i := y]> l) = Some (i, y).
Proof.
  unfold findOne. rewrite !list_find_Some. intros (Hi & _ & Hbefore) Hy.
  split_and!; [|done|].
  - apply list_lookup_insert_eq. by eapply lookup_lt_Some.
  - intros j z Hj Hlt. rewrite list_lookup_insert_ne in Hj by lia. eauto.
Qed.

Lemma findOne_snoc {A} (P : A → Prop) `{∀ x, Decision (P x)}
    (l : list A) (y : A) :
  findOne P l = None → P y → findOne P (l ++ [y]) = Some (length l, y).
Proof.
  unfold findOne. rewrite list_find_None, list_find_Some, Forall_forall.
  intros Hnone Hy. split_and!; [|done|].
  - by rewrite lookup_app_r, Nat.sub_diag.
  - intros j z Hj Hlt. rewrite lookup_app_l in Hj by done.
    apply Hnone. by eapply list_elem_of_lookup_2.
Qed.

Lemma ensureUser_spec (st st' : State) (from : From) (i : nat)
    (user : User) (es : list effect) :
  ensureUser st from = (st', i, user, es) →
  users st' !! i = Some user
  ∧ userId user = from_id from
  ∧ username user = from_username from
  ∧ (∀ k u, users st !! k = Some u → k ≠ i → users st' !! k = Some u)
  ∧ (length (users st) ≤ length (users st') ≤ S (length (users st)))%nat
  ∧ ensureUser st' from = (st', i, user, []).
Proof.
  unfold ensureUser at 1.
  destruct (findOne _ (users st)) as [[k u]|] eqn:E.
  - pose proof (findOne_Some _ _ _ _ E) as [Hk Hid].
    destruct (decide (username u = from_username from)) as [Hname|Hname];
      intros ?; simplify_eq.
    + split_and!; try done; try lia.
      unfold ensureUser. rewrite E. by rewrite decide_True.
    + split_and!; try done;
        try (simpl; rewrite length_insert; lia).
      * by eapply lookup_save_eq.
      * intros k u' Hk' Hne. simpl. by rewrite list_lookup_insert_ne.
      * unfold ensureUser. simpl users.
        rewrite (findOne_insert_same _ _ _ _ _ E) by done.
        by rewrite decide_True.
  - intros ?; simplify_eq.
    split_and!; try done;
      try (simpl; rewrite length_app; simpl; lia).
    + simpl. by rewrite lookup_app_r, Nat.sub_diag.
    + intros k u Hk _. simpl. by rewrite lookup_app_l by by eapply lookup_lt_Some.
    + unfold ensureUser. simpl users.
      rewrite (findOne_snoc _ _ _ E) by done.
      by rewrite decide_True.
Qed.

(** X4: [ensureUser] returns a profile that is stored at the position it
    gives, carries the sender's id and current user name, and leaves every
    other stored profile as it was; called again for the same sender it
    finds that profile and writes nothing. *)
Theorem ensureUser_finds_or_creates (st st' : State) (from : From) (i : nat)
    (user : User) (es : list effect) :
  ensureUser st from = (st', i, user, es) →
  users st' !! i = Some user
  ∧ userId user = from_id from
  ∧ username user = from_username from
  ∧ (∀ k u, users st !! k = Some u → k ≠ i → users st' !! k = Some u)
  ∧ (length (users st) ≤ length (users st') ≤ S (length (users st)))%nat
  ∧ ensureUser st' from = (st', i, user, []).
Proof. apply ensureUser_spec. Qed.

Lemma ensureUser_finds_or_creates_witness :
  let from := {| from_id := 7; from_username := Some "anna";
                 first_name := "Ann" |} in
  let st := run Demo.cfg Demo.setup in
  let called := ensureUser st from in
  users called.1.1.1 !! called.1.1.2 = Some called.1.2
  ∧ username called.1.2 = Some "anna"
  ∧ ensureUser called.1.1.1 from = (called.1.1.1, called.1.1.2, called.1.2, []).
Proof.
  intros from st called.
  destruct (ensureUser_finds_or_creates st called.1.1.1 from called.1.1.2
              called.1.2 called.2 eq_refl) as (H1 & _ & H2 & _ & _ & H3).
  by split_and!.
Defined.

(** X5: in every state the bot reaches no two profiles have the same user
    id: a profile is created only after the search by id found none. *)
Theorem userIds_are_unique (cfg : Config) (us : list update) :
  NoDup (userId <$> users (run cfg us)).
Proof. apply (run_sound cfg us). Qed.

(** ** Referrals and credits *)

(** X6: in every state the bot reaches, each referral names an inviter
    other than the user who joined, and a profile of that inviter is stored
    that lists the joined user among its credited joiners. *)
Theorem referrals_are_credited (cfg : Config) (us : list update) (f : Referral) :
  f ∈ referrals (run cfg us) →
  inviterUserId f ≠ joinedUserId f
  ∧ ∃ u, u ∈ users (run cfg us)
         ∧ userId u = inviterUserId f
         ∧ joinedUserId f ∈ invitedUsers u.
Proof. apply (run_sound cfg us). Qed.

Lemma referrals_are_credited_witness :
  let f := {| joinedUserId := 21; inviterUserId := 7; chatId := None |} in
  let st := run Demo.cfg
              (Demo.setup
               ++ [ChatMemberUpd (Demo.join Demo.channel 21 (Some Demo.ann_link))
                     true every_tier]) in
  ∃ u, u ∈ users st ∧ userId u = 7 ∧ 21 ∈ invitedUsers u.
Proof.
  intros f st.
  apply (referrals_are_credited Demo.cfg
           (Demo.setup
            ++ [ChatMemberUpd (Demo.join Demo.channel 21 (Some Demo.ann_link))
                  true every_tier]) f).
  apply list_elem_of_here.
Defined.

(** X7: in every state the bot reaches, a profile lists no joiner twice and
    never its own user, and a joiner is listed by at most one profile. *)
Theorem joiners_are_credited_once (cfg : Config) (us : list update) :
  let st := run cfg us in
  Forall credits_distinct (users st)
  ∧ ∀ i i' u u' j,
      users st !! i = Some u → users st !! i' = Some u' →
      j ∈ invitedUsers u → j ∈ invitedUsers u' → i = i'.
Proof.
  intros st. destruct (run_sound cfg us) as [_ Hc Ho _ _ _ _]. by split.
Qed.

(** X8: in every state the bot reaches, the invite counts of all profiles
    add up to the number of referrals, the two totals [/stats] reports
    about. *)
Theorem invite_counts_add_up_to_referrals (cfg : Config) (us : list update) :
  sum_list (invitesCount <$> users (run cfg us))
  = length (referrals (run cfg us)).
Proof. apply (run_sound cfg us). Qed.

(** X9: in every state the bot reaches, a profile has claimed no tier
    twice, and every tier it has claimed is the id of a reward of the
    catalog. *)
Theorem claimed_tiers_are_distinct_and_registered (cfg : Config)
    (us : list update) :
  Forall (claims_registered (run cfg us)) (users (run cfg us)).
Proof. apply (run_sound cfg us). Qed.

(** X10: in every state the bot reaches, only the configured admin has a
    pending reward upload. *)
Theorem pending_upload_only_for_admin (cfg : Config) (us : list update)
    (k : Z) (p : string * number) :
  pendingRewardUploads (run cfg us) !! k = Some p →
  strict_eq (of_Z k) (ADMIN_ID cfg) = true.
Proof. apply (run_sound cfg us). Qed.

Lemma pending_upload_only_for_admin_witness :
  strict_eq (of_Z 99) (ADMIN_ID Demo.cfg) = true.
Proof.
  apply (pending_upload_only_for_admin Demo.cfg
           [RewardCmd Demo.admin "/reward 4"] 99 ("4", of_Z 20)).
  reflexivity.
Defined.

(** ** The catalog of rewards *)

(** X11: after [findOneAndUpdate] with [upsert] the search by the reward's
    id returns the reward just written; rewards with another id stay in the
    catalog, nothing else enters it, and the catalog grows by one document
    exactly when the id was not registered yet. *)
Theorem upsert_reward_then_find (rs : list Reward) (r : Reward) :
  (∃ i, findOne (λ x, rewardId x = rewardId r) (upsert_reward rs r)
        = Some (i, r))
  ∧ (∀ x, x ∈ rs → rewardId x ≠ rewardId r → x ∈ upsert_reward rs r)
  ∧ (∀ x, x ∈ upsert_reward rs r → x = r ∨ x ∈ rs)
  ∧ length (upsert_reward rs r)
    = if decide (rewardId r ∈ rewardId <$> rs) then length rs
      else S (length rs).
Proof.
  unfold upsert_reward.
  destruct (findOne _ rs) as [[i x]|] eqn:E.
  - pose proof (findOne_Some _ _ _ _ E) as [Hi Hid]. split_and!.
    + exists i. by apply (findOne_insert_same _ _ _ _ _ E).
    + intros y [k Hk]%list_elem_of_lookup Hne.
      apply list_elem_of_lookup. exists k.
      rewrite list_lookup_insert_ne; [done|]. intros ->. simplify_eq.
    + intros y [->|Hy]%elem_of_insert_inv; auto.
    + rewrite length_insert, decide_True; [done|].
      apply list_elem_of_fmap. exists x. split; [done|].
      by eapply list_elem_of_lookup_2.
  - split_and!.
    + exists (length rs). by apply findOne_snoc.
    + intros y Hy _. apply elem_of_app. by left.
    + intros y [Hy| ->%list_elem_of_singleton]%elem_of_app; auto.
    + rewrite length_app, decide_False; [simpl; lia|].
      intros (y & Hy & Hin)%list_elem_of_fmap.
      unfold findOne in E. rewrite list_find_None, Forall_forall in E.
      by apply (E y).
Qed.

(** ** Dispatch, pass after pass *)

Lemma filter_twice {A} (f g h : A → bool) (l : list A) :
  (∀ x, x ∈ l → h x = f x && g x) →
  List.filter h l = List.filter g (List.filter f l).
Proof.
  induction l as [|a l IH]; intros H; [done|]. simpl.
  rewrite (H a) by apply list_elem_of_here.
  rewrite IH by (intros x Hx; apply H; by apply list_elem_of_further).
  destruct (f a); simpl; [|done]. by destruct (g a).
Qed.

Lemma filter_none {A} (f : A → bool) (l : list A) :
  (∀ x, x ∈ l → f x = false) → List.filter f l = [].
Proof.
  induction l as [|a l IH]; intros H; [done|]. simpl.
  rewrite (H a) by apply list_elem_of_here.
  apply IH. intros x Hx. apply H. by apply list_elem_of_further.
Qed.

(** X12: with unique tier ids, the tiers that are due after a pass of
    [sendDueRewards] are exactly the tiers of that pass whose delivery
    failed, in the same order: a delivered tier is never sent again, and
    after a pass without failure a further pass sends and writes nothing. *)
Theorem sendDueRewards_then_due (delivered : Reward → bool) (st : State)
    (i : nat) (inviter : User) :
  unique_rewardIds st →
  let sent := sendDueRewards delivered st i inviter in
  toSend sent.1.1 sent.1.2
  = List.filter (λ r, negb (delivered r)) (toSend st inviter)
  ∧ ((∀ r, r ∈ toSend st inviter → delivered r = true) →
     ∀ delivered' k,
       sendDueRewards delivered' sent.1.1 k sent.1.2
       = (sent.1.1, sent.1.2, [])).
Proof.
  intros Hu sent.
  assert (rewards sent.1.1 = rewards st
          ∧ invitesCount sent.1.2 = invitesCount inviter
          ∧ rewardsClaimed sent.1.2
            = rewardsClaimed inviter ++ delivered_ids delivered st inviter)
    as (Hr & Hcnt & Hcl).
  { unfold sent. rewrite sendDueRewards_spec. cbv zeta. unfold delivered_ids.
    destruct (toSend st inviter); [|done]. simpl. by rewrite app_nil_r. }
  assert (toSend sent.1.1 sent.1.2
          = List.filter (λ r, negb (delivered r)) (toSend st inviter)) as Hdue.
  { pose proof (delivered_ids_elem_of delivered st inviter) as Hids.
    pose proof (elem_of_toSend st inviter) as Hsend.
    unfold toSend, rewards_by_threshold. rewrite Hr.
    apply filter_twice. intros r Hin.
    rewrite merge_sort_Permutation in Hin.
    unfold due. rewrite Hcnt, Hcl.
    destruct (le (threshold r) (of_nat (invitesCount inviter))) eqn:Hle;
      [|done]. simpl.
    destruct (bool_decide (rewardId r ∈ rewardsClaimed inviter)) eqn:Hold.
    - apply bool_decide_eq_true in Hold. simpl.
      apply negb_false_iff, bool_decide_eq_true, elem_of_app. by left.
    - apply bool_decide_eq_false in Hold. simpl.
      assert (r ∈ toSend st inviter) as Hr0 by by apply Hsend.
      destruct (delivered r) eqn:Hdel; simpl.
      + apply negb_false_iff, bool_decide_eq_true, elem_of_app. right.
        apply Hids. by exists r.
      + apply negb_true_iff, bool_decide_eq_false.
        rewrite elem_of_app. intros [?|Hid]; [done|].
        apply Hids in Hid as (r' & Hr' & Hd' & Hid).
        apply Hsend in Hr' as (Hin' & _).
        assert (r' = r) as -> by by eapply unique_rewardIds_inj.
        congruence. }
  split; [done|].
  intros Hall delivered' k.
  assert (toSend sent.1.1 sent.1.2 = []) as Hnone.
  { rewrite Hdue. apply filter_none. intros r Hr0. by rewrite (Hall r). }
  rewrite sendDueRewards_spec. cbv zeta. by rewrite Hnone.
Qed.

Lemma sendDueRewards_then_due_witness :
  let st := catalog_state [tier "2" 10; tier "1" 5] [] in
  let sent := sendDueRewards only_tier_1 st 0 (inviter12 []) in
  toSend sent.1.1 sent.1.2 = [tier "2" 10].
Proof.
  intros st sent.
  assert (unique_rewardIds st) as Hu.
  { unfold unique_rewardIds. apply (bool_decide_unpack _). by vm_compute. }
  destruct (sendDueRewards_then_due only_tier_1 st 0 (inviter12 []) Hu)
    as [H _].
  exact H.
Defined.

(** ** Broadcast and leaderboard *)





#[global] Instance more_invites_total : Total more_invites.
Proof. intros a b. unfold more_invites. lia. Qed.

#[global] Instance more_invites_transitive : Transitive more_invites.
Proof. intros a b c. unfold more_invites. lia. Qed.

(** X14: [/top] leaves the state as it was and answers with the profiles in
    descending order of their invite counts, every one of them a stored
    profile, at most [LEADERBOARD_SIZE] of them when that size is not zero;
    it answers that there is no data exactly when no profile is stored. *)
Theorem top_is_sorted_and_bounded (cfg : Config) (st : State) :
  let top := limit (LEADERBOARD_SIZE cfg) (merge_sort more_invites (users st)) in
  handle cfg st TopCmd
  = (st, [Reply match top with
                | [] => NoData
                | _ => Leaderboard
                         ((λ u, (at_label_of u, invitesCount u)) <$> top)
                end])
  ∧ StronglySorted more_invites top
  ∧ (∀ u, u ∈ top → u ∈ users st)
  ∧ (LEADERBOARD_SIZE cfg ≠ O → length top ≤ LEADERBOARD_SIZE cfg)%nat
  ∧ (length top ≤ length (users st))%nat
  ∧ (top = [] ↔ users st = []).
Proof.
  intros top.
  assert (StronglySorted more_invites (merge_sort more_invites (users st)))
    as Hsorted by (apply StronglySorted_merge_sort; apply _).
  pose proof (merge_sort_Permutation more_invites (users st)) as Hperm.
  split_and!.
  - simpl. unfold on_top. fold top. by destruct top.
  - unfold top, limit. destruct (LEADERBOARD_SIZE cfg) as [|n]; [done|].
    rewrite <- (take_drop (S n) (merge_sort more_invites (users st))) in Hsorted.
    by apply StronglySorted_app_1_l in Hsorted.
  - intros u Hu. rewrite <- Hperm. unfold top, limit in Hu.
    destruct (LEADERBOARD_SIZE cfg) as [|n]; [done|].
    by eapply subseteq_take.
  - intros Hn. unfold top, limit.
    destruct (LEADERBOARD_SIZE cfg) as [|n]; [done|].
    rewrite length_take. lia.
  - rewrite <- (Permutation_length Hperm). unfold top, limit.
    destruct (LEADERBOARD_SIZE cfg) as [|n]; [done|].
    rewrite length_take. lia.
  - unfold top, limit. split.
    + intros Hnil. apply Permutation_nil_r. rewrite <- Hperm.
      destruct (LEADERBOARD_SIZE cfg) as [|n]; [by rewrite Hnil|].
      destruct (merge_sort more_invites (users st)); [done|discriminate].
    + intros Hnil. rewrite Hnil. by destruct (LEADERBOARD_SIZE cfg).
Qed.

(** ** Progress, once more *)




(** ** The ZIP test *)

Lemma append_cons (x : ascii) (a b : string) :
  String x a +:+ b = String x (a +:+ b).
Proof. reflexivity. Qed.

Lemma append_assoc (a b c : string) : (a +:+ b) +:+ c = a +:+ (b +:+ c).
Proof.
  induction a as [|x a IH]; [done|]. by rewrite !append_cons, IH.
Qed.

Lemma append_nil_r (a : string) : a +:+ "" = a.
Proof. induction a as [|x a IH]; [done|]. by rewrite append_cons, IH. Qed.

Lemma rev_app_append (a b : string) :
  String.rev_app a b = String.rev a +:+ b.
Proof.
  unfold String.rev. revert b. induction a as [|x a IH]; intros b; [done|].
  change (String.rev_app a (String x b)
          = String.rev_app a (String x "") +:+ b).
  rewrite (IH (String x b)), (IH (String x "")).
  by rewrite append_assoc.
Qed.

Lemma rev_append (a b : string) :
  String.rev (a +:+ b) = String.rev b +:+ String.rev a.
Proof.
  induction a as [|x a IH].
  - change (String.rev b = String.rev b +:+ ""). by rewrite append_nil_r.
  - change (String.rev_app (a +:+ b) (String x "")
            = String.rev b +:+ String.rev_app a (String x "")).
    rewrite !rev_app_append, IH. by rewrite append_assoc.
Qed.

Lemma prefix_append (a b : string) : String.prefix a (a +:+ b) = true.
Proof.
  induction a as [|x a IH].
  - by destruct b.
  - rewrite append_cons. simpl. by destruct (ascii_dec x x).
Qed.

Lemma endsWith_append (a p : string) : endsWith p (a +:+ p) = true.
Proof. unfold endsWith. rewrite rev_append. apply prefix_append. Qed.

Lemma toLowerCase_append (a b : string) :
  toLowerCase (a +:+ b) = toLowerCase a +:+ toLowerCase b.
Proof.
  induction a as [|x a IH]; [done|].
  rewrite append_cons. simpl. by rewrite IH, append_cons.
Qed.

Lemma includes_here (p s : string) :
  String.prefix p s = true → includes p s = true.
Proof. intros H. destruct s as [|c s]; cbn [includes]; by rewrite H. Qed.

Lemma includes_append (p a b : string) : includes p (a +:+ p +:+ b) = true.
Proof.
  induction a as [|x a IH].
  - change (includes p (p +:+ b) = true). apply includes_here, prefix_append.
  - rewrite append_cons. cbn [includes]. rewrite IH. apply orb_true_r.
Qed.

(** X16: an upload passes the ZIP test when its file name ends in [.zip]
    written in any mix of upper and lower case, whatever its type, and when
    its type contains [zip], whatever its name; it fails when it has
    neither a type nor a name. *)
Theorem isZip_by_name_or_type (doc : Document) :
  (∀ stem ext, file_name doc = Some (stem +:+ ext) →
               toLowerCase ext = ".zip" → isZip doc = true)
  ∧ (∀ a b, mime_type doc = Some (a +:+ "zip" +:+ b) → isZip doc = true)
  ∧ (mime_type doc = None → file_name doc = None → isZip doc = false).
Proof.
  unfold isZip. split_and!.
  - intros stem ext Hname Hext. rewrite Hname.
    rewrite toLowerCase_append, Hext, endsWith_append.
    assert (truthy (Some (stem +:+ ext)) = true) as ->.
    { destruct stem; [|done]. by destruct ext. }
    apply orb_true_r.
  - intros a b Hmime. rewrite Hmime, includes_append.
    assert (truthy (Some (a +:+ "zip" +:+ b)) = true) as -> by by destruct a.
    done.
  - by intros -> ->.
Qed.

Lemma isZip_by_name_or_type_witness :
  isZip {| mime_type := Some "application/octet-stream";
           file_name := Some "Pack.ZIP"; file_id := "f" |} = true.
Proof.
  apply (isZip_by_name_or_type
           {| mime_type := Some "application/octet-stream";
              file_name := Some "Pack.ZIP"; file_id := "f" |})
    with (stem := "Pack") (ext := ".ZIP"); reflexivity.
Defined.

(** ** What an update leaves alone *)

Lemma read_only_keeps_state (cfg : Config) (st : State)
    (u : update) :
  read_only u = true → (handle cfg st u).1 = st.
Proof.
  destruct u; try discriminate; intros _; simpl.
  - unfold on_top. by destruct (limit _ _).
  - done.
  - unfold on_stats. by destruct (negb _).
  - unfold on_user. destruct (negb _); [done|].
    destruct (decide _); [done|]. by repeat case_match.
  - unfold on_broadcast. destruct (negb _); [done|].
    destruct (decide _); [done|]. by destruct (broadcast_each _ _ _) as [[??]?].
  - unfold on_rewardslist. destruct (negb _); [done|].
    by destruct (rewards_by_threshold st).
Qed.

(** X17: the leaderboard, the help text, the statistics, the user lookup,
    the broadcast and the list of rewards never write: whoever sends them,
    the admin included, the state after the update is the state before. *)
Theorem read_only_updates_write_nothing (cfg : Config) (st : State)
    (u : update) :
  read_only u = true → (handle cfg st u).1 = st.
Proof. apply read_only_keeps_state. Qed.

Lemma read_only_updates_write_nothing_witness :
  (handle Demo.cfg (run Demo.cfg Demo.setup)
     (BroadcastCmd Demo.admin "/broadcast hello" (λ _, true))).1
  = run Demo.cfg Demo.setup.
Proof.
  apply (read_only_updates_write_nothing Demo.cfg). reflexivity.
Defined.

Lemma only_profile_of_refl (uid : Z) (st : State) : only_profile_of uid st st.
Proof. split_and!; try done. intros k p Hk. by exists p. Qed.

Lemma only_profile_of_trans (uid : Z) (st st1 st2 : State) :
  only_profile_of uid st st1 → only_profile_of uid st1 st2 →
  only_profile_of uid st st2.
Proof.
  intros (Hr & Hf & Hp & Hu) (Hr' & Hf' & Hp' & Hu').
  split_and!; [congruence..|].
  intros k p Hk.
  destruct (Hu k p Hk) as (p1 & Hk1 & Hid1 & Hi1 & Hc1 & Hcl1 & Hsame1).
  destruct (Hu' k p1 Hk1) as (p2 & Hk2 & Hid2 & Hi2 & Hc2 & Hcl2 & Hsame2).
  exists p2. split_and!; [done|congruence..|].
  intros Hne. rewrite Hsame2 by congruence. by apply Hsame1.
Qed.

(** A save of the profile of [uid] that keeps its credits and claims. *)
Lemma only_profile_of_save (st : State) (i : nat) (u u' : User) :
  users st !! i = Some u →
  userId u' = userId u → invitedUsers u' = invitedUsers u →
  invitesCount u' = invitesCount u → rewardsClaimed u' = rewardsClaimed u →
  only_profile_of (userId u) st (save st i u').
Proof.
  intros Hi Hid Hinv Hcnt Hcl. split_and!; try done.
  intros k p Hk. simpl. destruct (decide (i = k)) as [->|Hne].
  - exists u'. rewrite list_lookup_insert_eq by by eapply lookup_lt_Some.
    simplify_eq. by split_and!.
  - exists p. by rewrite list_lookup_insert_ne.
Qed.

Lemma ensureUser_only_profile (st : State) (from : From) :
  only_profile_of (from_id from) st (ensureUser st from).1.1.1.
Proof.
  unfold ensureUser.
  destruct (findOne _ (users st)) as [[i u]|] eqn:E.
  - apply findOne_Some in E as [Hi Hid].
    destruct (decide _); [apply only_profile_of_refl|].
    rewrite <- Hid. by apply only_profile_of_save.
  - split_and!; try done. intros k p Hk. exists p. simpl.
    by rewrite lookup_app_l by by eapply lookup_lt_Some.
Qed.

Lemma getOrCreateInviteLinkForUser_only_profile (answer : option string)
    (st : State) (i : nat) (user : User) :
  users st !! i = Some user →
  only_profile_of (userId user) st
    (getOrCreateInviteLinkForUser answer st i user).1.1.
Proof.
  intros Hi. unfold getOrCreateInviteLinkForUser.
  destruct (truthy _); [apply only_profile_of_refl|].
  destruct answer; [|apply only_profile_of_refl].
  by apply only_profile_of_save.
Qed.

Lemma profile_command_only_profile (cfg : Config) (st : State) (u : update)
    (f : From) :
  profile_command u = Some (Some f) →
  only_profile_of (from_id f) st (handle cfg st u).1.
Proof.
  intros Hu.
  pose proof (ensureUser_only_profile st f) as H1.
  pose proof (ensureUser_spec st) as Hpost.
  destruct u; simpl in Hu; simplify_eq; simpl.
  - unfold on_start.
    destruct (ensureUser st f) as [[[st1 i] user] es] eqn:E.
    destruct (Hpost _ _ _ _ _ E) as (Hi & Hid & _).
    pose proof (getOrCreateInviteLinkForUser_only_profile link st1 i user Hi)
      as H2. rewrite Hid in H2.
    destruct (getOrCreateInviteLinkForUser _ _ _ _) as [[st2 [l|]] es'];
      by eapply only_profile_of_trans.
  - unfold on_link.
    destruct (ensureUser st f) as [[[st1 i] user] es] eqn:E.
    destruct (Hpost _ _ _ _ _ E) as (Hi & Hid & _).
    pose proof (getOrCreateInviteLinkForUser_only_profile link st1 i user Hi)
      as H2. rewrite Hid in H2.
    destruct (getOrCreateInviteLinkForUser _ _ _ _) as [[st2 [l|]] es'];
      by eapply only_profile_of_trans.
  - unfold on_myinvites.
    destruct (ensureUser st f) as [[[st1 i] user] es]. exact H1.
  - unfold on_rewards.
    destruct (ensureUser st f) as [[[st1 i] user] es].
    by destruct (rewardsClaimed user).
Qed.

Lemma registration_keeps_users (cfg : Config) (st : State) (u : update) :
  registration u = true →
  users (handle cfg st u).1 = users st
  ∧ referrals (handle cfg st u).1 = referrals st.
Proof.
  destruct u; try discriminate; intros _; simpl.
  - unfold on_reward. destruct (negb _); [done|].
    destruct from; [|done]. by destruct (trim_split text !! 1%nat).
  - unfold on_document. destruct (negb _); [done|].
    destruct from as [f|]; [|done].
    destruct (pendingRewardUploads st !! from_id f) as [[id thr]|]; [|done].
    destruct (negb _); [done|]. by destruct (isNaN thr).
Qed.

(** X18: [/start], [/link], [/myinvites] and [/rewards] touch nothing but
    the sender's own profile, of which only the name and the link can
    change: the catalog, the referrals and the pending uploads stay, every
    stored profile keeps its credited joiners, its count and its claimed
    tiers, and the profiles of other users stay as they are. *)
Theorem profile_commands_touch_only_the_sender (cfg : Config) (st : State)
    (u : update) (f : From) :
  profile_command u = Some (Some f) →
  only_profile_of (from_id f) st (handle cfg st u).1.
Proof. apply profile_command_only_profile. Qed.

Lemma profile_commands_touch_only_the_sender_witness :
  only_profile_of 8 (run Demo.cfg Demo.setup)
    (handle Demo.cfg (run Demo.cfg Demo.setup)
       (StartCmd (Some {| from_id := 8; from_username := None;
                          first_name := "Bo" |})
          (Some "https://t.me/+bo"))).1.
Proof.
  apply (profile_commands_touch_only_the_sender Demo.cfg
           (run Demo.cfg Demo.setup) _
           {| from_id := 8; from_username := None; first_name := "Bo" |}).
  reflexivity.
Defined.

(** X19: [/reward] and the upload of a document never touch the profiles
    or the referrals. *)
Theorem registration_touches_no_profile (cfg : Config) (st : State)
    (u : update) :
  registration u = true →
  users (handle cfg st u).1 = users st
  ∧ referrals (handle cfg st u).1 = referrals st.
Proof. apply registration_keeps_users. Qed.

Lemma registration_touches_no_profile_witness :
  users (handle Demo.cfg (run Demo.cfg Demo.setup)
           (RewardCmd Demo.admin "/reward 2")).1
  = users (run Demo.cfg Demo.setup).
Proof.
  apply (registration_touches_no_profile Demo.cfg (run Demo.cfg Demo.setup)
           (RewardCmd Demo.admin "/reward 2")).
  reflexivity.
Defined.

(** ** Where referrals come from *)

Lemma handle_ledger (cfg : Config) (st : State) (u : update) :
  referrals (handle cfg st u).1 = referrals st
  ∨ ∃ upd notified delivered i inviter j,
      u = ChatMemberUpd upd notified delivered
      ∧ tracked_join cfg st upd = Some (i, inviter, j)
      ∧ (j ∉ ledger st)
      ∧ referrals (handle cfg st u).1
        = referrals st ++ [referral_of cfg inviter j].
Proof.
  destruct (profile_command u) as [[f|]|] eqn:Hp.
  - left. by apply (profile_command_only_profile cfg st u f).
  - left. destruct u; simpl in Hp; simplify_eq; reflexivity.
  - destruct (read_only u) eqn:Hr.
    { left. by rewrite read_only_keeps_state. }
    destruct (registration u) eqn:Hg.
    { left. by apply registration_keeps_users. }
    destruct u; try discriminate. simpl.
    destruct (tracked_join cfg st upd) as [[[i inviter] j]|] eqn:Ht.
    + destruct (decide (j ∈ ledger st)) as [Hj|Hj].
      * left. by rewrite (on_chat_member_known _ _ _ _ _ _ _ _ Ht Hj).
      * right. exists upd, notified, delivered, i, inviter, j.
        split_and!; try done.
        destruct (on_chat_member_fresh_state cfg st upd notified delivered
                    i inviter j Ht Hj) as (ids & -> & _).
        done.
    + left. unfold on_chat_member. by rewrite Ht.
Qed.

(** X20: a join that passes the guards of the handler comes from the
    configured channel whenever the configuration is a numeric id, and also
    under a public name whenever the chat of the update has a user name:
    the ids are equal, respectively the name with [@] in front is the
    configured one. *)
Theorem tracked_join_is_from_the_channel (cfg : Config) (st : State)
    (update : option ChatMemberUpdated) (i : nat) (inviter : User) (j : Z) :
  tracked_join cfg st update = Some (i, inviter, j) →
  ∃ upd,
    update = Some upd
    ∧ (∀ n, CHANNEL_CHAT_ID cfg = Numeric n →
            ∃ c, chat upd = Some c ∧ strict_eq (of_Z (chat_id c)) n = true)
    ∧ (∀ name c a uname,
         CHANNEL_CHAT_ID cfg = Public name → chat upd = Some c →
         chat_username c = Some (String a uname) →
         "@" +:+ String a uname = CHANNEL_ID cfg).
Proof.
  intros (_ & _ & upd & joined & -> & Hacc & _)%tracked_join_Some.
  exists upd. split_and!; [done| |].
  - intros n Hn. destruct (chat upd) as [c|] eqn:Hc.
    + exists c. split; [done|].
      by rewrite <- (channel_accepted_numeric cfg upd n c).
    + unfold channel_accepted in Hacc. by rewrite Hn, Hc in Hacc.
  - intros name c a uname Hn Hc Hu.
    rewrite (channel_accepted_named cfg upd name c a uname) in Hacc by done.
    by apply bool_decide_eq_true in Hacc.
Qed.

Lemma tracked_join_is_from_the_channel_witness :
  "@" +:+ "wallswipe" = CHANNEL_ID Demo.cfg.
Proof.
  destruct (tracked_join_is_from_the_channel Demo.cfg (run Demo.cfg Demo.setup)
              (Demo.join Demo.channel 21 (Some Demo.ann_link)) 0%nat
              (set_inviteLink (new_user 7 (Some "ann")) Demo.ann_link) 21
              eq_refl) as (upd & Hupd & _ & H).
  injection Hupd as <-.
  exact (H "@wallswipe" Demo.channel "w"%char "allswipe" eq_refl eq_refl eq_refl).
Defined.






(** X22: an update changes the referrals only when it is a join that
    passes the guards of the handler for a user without a referral, and
    then it appends the one referral of that user to its inviter; every
    other update leaves the referrals as they are. *)
Theorem referrals_change_only_by_a_tracked_join (cfg : Config) (st : State)
    (u : update) :
  referrals (handle cfg st u).1 = referrals st
  ∨ ∃ upd notified delivered i inviter j,
      u = ChatMemberUpd upd notified delivered
      ∧ tracked_join cfg st upd = Some (i, inviter, j)
      ∧ (j ∉ ledger st)
      ∧ referrals (handle cfg st u).1
        = referrals st ++ [referral_of cfg inviter j].
Proof. apply handle_ledger. Qed.

(** ** The admin and the lookup of a user *)

Lemma strict_eq_integers (a b : Z) :
  strict_eq (of_Z a) (of_Z b) = bool_decide (a = b).
Proof.
  unfold strict_eq, of_Z, Qeq_bool. simpl. rewrite !Z.mul_1_r.
  case_bool_decide; [by apply Z.eqb_eq|by apply Z.eqb_neq].
Qed.

(** X23: when the configured admin id is an integer, the sender of an
    update is the admin exactly when the update has a sender and the
    sender's id is that integer. *)
Theorem isAdmin_iff_sender_is_ADMIN_ID (cfg : Config) (from : option From)
    (a : Z) :
  ADMIN_ID cfg = of_Z a →
  isAdmin cfg from = true ↔ ∃ f, from = Some f ∧ from_id f = a.
Proof.
  intros Ha. unfold isAdmin. destruct from as [f|].
  - rewrite Ha, strict_eq_integers, bool_decide_eq_true. split.
    + intros Hf. by exists f.
    + by intros (f' & [= <-] & Hf).
  - split; [done|]. by intros (f & ? & _).
Qed.

Lemma isAdmin_iff_sender_is_ADMIN_ID_witness :
  isAdmin Demo.cfg Demo.ann = true ↔ ∃ f, Demo.ann = Some f ∧ from_id f = 99.
Proof. apply (isAdmin_iff_sender_is_ADMIN_ID Demo.cfg Demo.ann 99). reflexivity. Defined.

Lemma on_user_by_id (cfg : Config) (st : State) (from : option From)
    (text : string) (z : Z) :
  isAdmin cfg from = true → command_argument text ≠ "" →
  startsWith "@" (command_argument text) = false →
  Number_of_string (command_argument text) = of_Z z →
  handle cfg st (UserCmd from text)
  = (st, [Reply match findOne (λ u, userId u = z) (users st) with
                | Some (_, u) => UserReport u
                | None => UserNotFound
                end]).
Proof.
  intros Ha Harg Hat Hnum. simpl. unfold on_user. rewrite Ha. simpl.
  rewrite decide_False by done. rewrite Hat, Hnum.
  change (of_Z z) with (Finite (inject_Z z)). cbv iota beta.
  unfold findOne. rewrite (list_find_ext _ (λ u, userId u = z)).
  - by destruct (list_find _ (users st)) as [[??]|].
  - intros u.
    change (Is_true (strict_eq (of_Z (userId u)) (of_Z z)) ↔ userId u = z).
    by rewrite strict_eq_integers, Is_true_true, bool_decide_eq_true.
Qed.

(** X24: [/user <id>] from the admin, with an argument that is the integer
    [z], leaves the state as it was and reports a stored profile whose user
    id is [z] when there is one, and that the user was not found when
    there is none. *)
Theorem user_lookup_by_id (cfg : Config) (st : State) (from : option From)
    (text : string) (z : Z) :
  isAdmin cfg from = true → command_argument text ≠ "" →
  startsWith "@" (command_argument text) = false →
  Number_of_string (command_argument text) = of_Z z →
  (z ∈ userId <$> users st →
   ∃ u, u ∈ users st ∧ userId u = z
        ∧ handle cfg st (UserCmd from text) = (st, [Reply (UserReport u)]))
  ∧ (z ∉ userId <$> users st →
     handle cfg st (UserCmd from text) = (st, [Reply UserNotFound])).
Proof.
  intros Ha Harg Hat Hnum.
  rewrite (on_user_by_id cfg st from text z) by done.
  destruct (findOne _ (users st)) as [[i u]|] eqn:E.
  - apply findOne_Some in E as [Hi Hid]. split.
    + intros _. exists u. split_and!; [by eapply list_elem_of_lookup_2|done..].
    + intros Hno. exfalso. apply Hno. apply list_elem_of_fmap.
      exists u. split; [done|]. by eapply list_elem_of_lookup_2.
  - unfold findOne in E. rewrite list_find_None, Forall_forall in E. split.
    + intros (u & Hid & Hu)%list_elem_of_fmap. exfalso. by apply (E u).
    + done.
Qed.

Lemma user_lookup_by_id_witness :
  ∃ u, u ∈ users (run Demo.cfg Demo.setup) ∧ userId u = 7
       ∧ handle Demo.cfg (run Demo.cfg Demo.setup) (UserCmd Demo.admin "/user 7")
         = (run Demo.cfg Demo.setup, [Reply (UserReport u)]).
Proof.
  destruct (user_lookup_by_id Demo.cfg (run Demo.cfg Demo.setup) Demo.admin
              "/user 7" 7) as [H _]; try reflexivity.
  - by vm_compute.
  - apply H. apply list_elem_of_here.
Defined.
